(** * A distributed sliding-window rate limiter: model and verified properties

    Shallow embedding of [src/config.py], [src/models.py],
    [src/rate_limiter.py] and [src/server.py].

    - Integers are [Z]; Python's [//] is [Z.div] (floor) and [int(float)] is
      [Z.quot] (truncation toward zero).
    - Wall-clock time is a number of microseconds since the epoch (the
      resolution of [datetime]); [time.time()] and [datetime.now()] read the
      same clock.  A [datetime] value is such a number as well, so that
      [(d1 - d2).total_seconds()] is [(d1 - d2) / 10^6].
    - The Redis server is modelled by its hashes and key deadlines, with the
      commands the code issues ([HINCRBY], [EXPIRE], [HMGET], [HKEYS],
      [HDEL]).  Field names are the decimal strings the code writes.
    - Effects (clock, store round trips, exceptions, randomness, spawned
      tasks) live in a state-and-exception monad [M] over a [World]. *)

From Stdlib Require Import ZArith List String Ascii DecimalString DecimalZ DecimalPos Lia.
From stdpp Require Import base gmap strings list fin_maps.

Local Open Scope string_scope.
Local Open Scope list_scope.
Local Open Scope Z_scope.

(** ** Python built-ins used by the code *)

(** [str(n)] for an [int]. *)
Definition str (z : Z) : string := NilZero.string_of_int (Z.to_int z).

(** [int(s)] for a string; [None] stands for [ValueError]. *)
Definition int (s : string) : option Z := Z.of_int <$> NilZero.int_of_string s.

(** [s.startswith(p)] *)
Definition startswith (s p : string) : bool := String.prefix p s.

(** [s.replace(old, new)] for a non-empty [old]: a left-to-right scan that
    replaces every non-overlapping occurrence.  [skip] counts the characters
    of a matched occurrence still to be dropped. *)
Fixpoint replace_from (old new : string) (skip : nat) (s : string) : string :=
  match s with
  | EmptyString => EmptyString
  | String c s' =>
      match skip with
      | S k => replace_from old new k s'
      | O =>
          if String.prefix old s
          then new +:+ replace_from old new (String.length old - 1) s'
          else String c (replace_from old new 0 s')
      end
  end.

Definition replace (s old new : string) : string := replace_from old new 0 s.

(** [s * n] for a string and an [int]. *)
Fixpoint str_mul (s : string) (n : nat) : string :=
  match n with
  | O => EmptyString
  | S n' => s +:+ str_mul s n'
  end.

(** [sum(xs)]: a left fold from [0]. *)
Definition sum (xs : list Z) : Z := foldl Z.add 0 xs.

(** [range(a, b)] *)
Definition range (a b : Z) : list Z := seqZ a (b - a).

(** ** config.py *)

Record Limits := mkLimits { input_tpm : Z; output_tpm : Z; rpm : Z }.

Module Config.
Definition SLIDING_WINDOW_SIZE_SECONDS : Z := 60.
Definition WINDOW_SEGMENTS : Z := 12.

Definition DEFAULT_RATE_LIMITS : Limits :=
  {| input_tpm := 100000; output_tpm := 100000; rpm := 100 |}.

Definition API_KEY_LIMITS : gmap string Limits :=
  <["test-key-1" := {| input_tpm := 1000; output_tpm := 1000; rpm := 10000 |}]>
 (<["test-key-2" := {| input_tpm := 10000; output_tpm := 10000; rpm := 2000 |}]>
 (<["test-key-3" := {| input_tpm := 10000; output_tpm := 10000; rpm := 5000 |}]> ∅)).

Definition get_api_key_limits (api_key : string) : Limits :=
  default DEFAULT_RATE_LIMITS (API_KEY_LIMITS !! api_key).
End Config.

(** ** models.py *)

Record ChatMessage := mkChatMessage {
  role : string;
  content : string;
  name : option string
}.

(** The sampling options of the request ([temperature], [top_p], ...) are
    never read by the server and are left out. *)
Record ChatCompletionRequest := mkRequest {
  model : string;
  messages : list ChatMessage;
  max_tokens : option Z
}.

Record Usage := mkUsage {
  prompt_tokens : Z;
  completion_tokens : Z;
  total_tokens : Z
}.

Record Choice := mkChoice {
  index : Z;
  message : ChatMessage;
  finish_reason : string
}.

(** The random [id] of a response is left out; [created] is a clock read. *)
Record ChatCompletionResponse := mkCompletion {
  object : string;
  created : Z;
  response_model : string;
  choices : list Choice;
  usage : Usage;
  system_fingerprint : option string
}.

Record RateLimitInfo := mkInfo {
  api_key : string;
  input_tpm_used : Z;
  output_tpm_used : Z;
  rpm_used : Z;
  input_tpm_limit : Z;
  output_tpm_limit : Z;
  rpm_limit : Z;
  window_start : Z;
  window_end : Z
}.

(** ** The Redis server *)

Definition usec : Z := 1000000.

Record Redis := mkRedis {
  hashes : gmap string (gmap string Z);
  expiry : gmap string Z
}.

Definition empty_redis : Redis := {| hashes := ∅; expiry := ∅ |}.

Inductive Cmd :=
| HINCRBY (key field : string) (value : Z)
| EXPIRE (key : string) (seconds : Z)
| HMGET (key : string) (fields : list string)
| HKEYS (key : string)
| HDEL (key : string) (fields : list string).

(** A key whose deadline has passed is gone. *)
Definition expired (now : Z) (r : Redis) (key : string) : bool :=
  match expiry r !! key with
  | Some d => bool_decide (d ≤ now)
  | None => false
  end.

(** The hash stored at [key] as a command sees it at time [now]; a missing
    key reads as the empty hash. *)
Definition hash_at (now : Z) (r : Redis) (key : string) : gmap string Z :=
  if expired now r key then ∅ else default ∅ (hashes r !! key).

Definition hincrby (now : Z) (key field : string) (value : Z) (r : Redis) : Redis :=
  let h := hash_at now r key in
  {| hashes := <[key := <[field := default 0 (h !! field) + value]> h]> (hashes r);
     expiry := if expired now r key then delete key (expiry r) else expiry r |}.

Definition expire (now : Z) (key : string) (seconds : Z) (r : Redis) : Redis :=
  if expired now r key then r
  else match hashes r !! key with
       | Some _ => {| hashes := hashes r;
                      expiry := <[key := now + seconds * usec]> (expiry r) |}
       | None => r
       end.

Definition hmget (now : Z) (key : string) (fields : list string) (r : Redis)
  : list (option Z) :=
  (λ f, hash_at now r key !! f) <$> fields.

Definition hkeys (now : Z) (key : string) (r : Redis) : list string :=
  (map_to_list (hash_at now r key)).*1.

(** Deleting the last field of a hash removes the key. *)
Definition hdel (now : Z) (key : string) (fields : list string) (r : Redis) : Redis :=
  let h := foldr delete (hash_at now r key) fields in
  if decide (h = ∅)
  then {| hashes := delete key (hashes r); expiry := delete key (expiry r) |}
  else {| hashes := <[key := h]> (hashes r); expiry := expiry r |}.

(** The effect of a command on the server. *)
Definition apply_cmd (now : Z) (r : Redis) (c : Cmd) : Redis :=
  match c with
  | HINCRBY key field value => hincrby now key field value r
  | EXPIRE key seconds => expire now key seconds r
  | HMGET _ _ => r
  | HKEYS _ => r
  | HDEL key fields => hdel now key fields r
  end.

(** ** The world and the effect monad *)

Record World := mkWorld {
  redis : Redis;
  clock : Z;                  (* wall-clock time, microseconds *)
  delays : list N;            (* time that passes at the coming suspension points *)
  faults : list bool;         (* whether the coming store round trips fail *)
  rng : list nat;             (* the coming draws of [random.choice] *)
  log : list (Cmd * bool);    (* commands sent so far, with whether they ran *)
  tasks : list string         (* spawned clean-up tasks not yet run *)
}.

Inductive Exc :=
| RedisError
| HTTPException (status_code : Z) (message type : string).

Inductive Res (A : Type) :=
| Ok (a : A)
| Raise (e : Exc).
Arguments Ok {A} a.
Arguments Raise {A} e.

Definition M (A : Type) : Type := World → Res A * World.

#[global] Instance M_ret : MRet M := λ A a w, (Ok a, w).
#[global] Instance M_bind : MBind M := λ A B f m w,
  match m w with
  | (Ok a, w') => f a w'
  | (Raise e, w') => (Raise e, w')
  end.

Definition raise {A} (e : Exc) : M A := λ w, (Raise e, w).

Definition get_world : M World := λ w, (Ok w, w).

(** Time passes: the clock advances by the next delay. *)
Definition tick : M unit := λ w,
  match delays w with
  | [] => (Ok tt, w)
  | d :: ds =>
      (Ok tt, {| redis := redis w; clock := clock w + Z.of_N d; delays := ds;
                 faults := faults w; rng := rng w; log := log w; tasks := tasks w |})
  end.

(** Reading the clock, in microseconds. *)
Definition read_clock : M Z := tick;; w ← get_world; mret (clock w).

(** [int(time.time())] *)
Definition int_time_time : M Z := t ← read_clock; mret (Z.quot t usec).

(** [datetime.now()] *)
Definition datetime_now : M Z := read_clock.

(** [datetime.fromtimestamp(seconds)] *)
Definition fromtimestamp (seconds : Z) : Z := seconds * usec.

(** [int(td.total_seconds())] for a [timedelta] of [td] microseconds. *)
Definition int_total_seconds (td : Z) : Z := Z.quot td usec.

(** One round trip to the store: time passes, then either the connection
    fails and [RedisError] is raised, or the commands run in order. *)
Definition send (cmds : list Cmd) : M unit := λ w,
  match faults w with
  | true :: fs =>
      (Raise RedisError,
       {| redis := redis w; clock := clock w; delays := delays w; faults := fs;
          rng := rng w; log := log w ++ ((λ c, (c, false)) <$> cmds);
          tasks := tasks w |})
  | fs =>
      (Ok tt,
       {| redis := foldl (apply_cmd (clock w)) (redis w) cmds;
          clock := clock w; delays := delays w; faults := tail fs;
          rng := rng w; log := log w ++ ((λ c, (c, true)) <$> cmds);
          tasks := tasks w |})
  end.

Definition round_trip (cmds : list Cmd) : M unit := tick;; send cmds.

(** [await self.redis.hmget(key, fields)] *)
Definition redis_hmget (key : string) (fields : list string) : M (list (option Z)) :=
  round_trip [HMGET key fields];;
  w ← get_world; mret (hmget (clock w) key fields (redis w)).

(** [await self.redis.hkeys(key)] *)
Definition redis_hkeys (key : string) : M (list string) :=
  round_trip [HKEYS key];;
  w ← get_world; mret (hkeys (clock w) key (redis w)).

(** [await self.redis.hdel(key, *fields)] *)
Definition redis_hdel (key : string) (fields : list string) : M unit :=
  round_trip [HDEL key fields].

(** [await pipe.execute()] for the queued commands. *)
Definition pipeline_execute (cmds : list Cmd) : M unit := round_trip cmds.

(** [asyncio.create_task(self._clean_old_segments(key))] *)
Definition create_task (key : string) : M unit := λ w,
  (Ok tt, {| redis := redis w; clock := clock w; delays := delays w;
             faults := faults w; rng := rng w; log := log w;
             tasks := tasks w ++ [key] |}).

(** [random.choice(xs)] for a non-empty list. *)
Definition random_choice {A} (d : A) (xs : list A) : M A := λ w,
  match rng w with
  | [] => (Ok (nth 0 xs d), w)
  | n :: ns =>
      (Ok (nth (n mod length xs)%nat xs d),
       {| redis := redis w; clock := clock w; delays := delays w;
          faults := faults w; rng := ns; log := log w; tasks := tasks w |})
  end.

(** ** Stand-ins for the external collaborators, used to run the model *)

(** A tokenizer that yields one token per blank-separated word. *)
Fixpoint words_from (in_word : bool) (s : string) : list Z :=
  match s with
  | EmptyString => []
  | String c s' =>
      if Ascii.eqb c " "%char then words_from false s'
      else if in_word then words_from true s'
      else 1 :: words_from true s'
  end.

Definition word_encode (s : string) : list Z := words_from false s.

(** A tokenizer that yields one token per character. *)
Definition char_encode (s : string) : list Z :=
  (λ c, Z.of_nat (nat_of_ascii c)) <$> list_ascii_of_string s.

(** A printer of timestamps: the number of microseconds, in decimal. *)
Definition plain_isoformat (t : Z) : string := str t.

(** ** rate_limiter.py and server.py *)

Definition window_size : Z := Config.SLIDING_WINDOW_SIZE_SECONDS.
Definition segments : Z := Config.WINDOW_SEGMENTS.
Definition segment_size : Z := window_size / segments.

(** The dictionary returned by [_get_redis_keys]. *)
Record Keys := mkKeys { rpm_key : string; input_tpm_key : string; output_tpm_key : string }.

(** The body of a JSON response. *)
Inductive Content :=
| ErrorContent (message type : string) (param : option string) (code : string)
| CompletionContent (c : ChatCompletionResponse).

Record JSONResponse := mkResponse {
  status_code : Z;
  headers : gmap string string;
  response_content : Content
}.

(** Truth value of an [Optional[int]]: [None] and [0] are false. *)
Definition truthy (o : option Z) : bool :=
  match o with
  | Some n => negb (n =? 0)
  | None => false
  end.

Section RateLimiter.
(** [self.encoding.encode], the tokenizer. *)
Variable encode : string → list Z.
(** [datetime.isoformat]. *)
Variable isoformat : Z → string.

Definition _get_current_segment : M Z :=
  current_time ← int_time_time;
  mret (current_time / segment_size).

Definition _get_window_segments : M (Z * Z) :=
  current_segment ← _get_current_segment;
  let start_segment := current_segment - segments + 1 in
  mret (start_segment, current_segment).

Definition _get_redis_keys (api_key : string) : Keys :=
  {| rpm_key := "rate_limit:rpm:" +:+ api_key;
     input_tpm_key := "rate_limit:input_tpm:" +:+ api_key;
     output_tpm_key := "rate_limit:output_tpm:" +:+ api_key |}.

Definition _increment_counter (key : string) (segment : Z) (value : Z) : M unit :=
  let field := str segment in
  pipeline_execute [HINCRBY key field value; EXPIRE key (window_size * 2)].

Definition _get_window_sum (key : string) : M Z :=
  '(start_segment, end_segment) ← _get_window_segments;
  let segments_to_check := str <$> range start_segment (end_segment + 1) in
  values ← redis_hmget key segments_to_check;
  let total := sum ((λ v, match v with Some n => n | None => 0 end) <$> values) in
  mret total.

Definition _clean_old_segments (key : string) : M unit :=
  '(start_segment, _) ← _get_window_segments;
  all_fields ← redis_hkeys key;
  match all_fields with
  | [] => mret tt
  | _ =>
      let fields_to_delete :=
        List.filter (λ field, match int field with
                              | Some segment => bool_decide (segment < start_segment)
                              | None => false
                              end) all_fields in
      match fields_to_delete with
      | [] => mret tt
      | _ => redis_hdel key fields_to_delete
      end
  end.

Definition count_tokens (text : string) : Z := Z.of_nat (length (encode text)).

Definition estimate_request_tokens (request : ChatCompletionRequest) : Z :=
  let total_tokens :=
    foldl (λ total_tokens message,
             total_tokens + count_tokens (role message)
                          + count_tokens (content message) + 4)
          0 (messages request) in
  total_tokens + 2.

Definition check_rate_limit (api_key : string) (request : ChatCompletionRequest)
  : M (bool * RateLimitInfo) :=
  let limits := Config.get_api_key_limits api_key in
  let keys := _get_redis_keys api_key in
  let input_tokens := estimate_request_tokens request in
  let output_tokens :=
    if truthy (max_tokens request) then default 0 (max_tokens request) else 1000 in
  current_rpm ← _get_window_sum (rpm_key keys);
  current_input_tpm ← _get_window_sum (input_tpm_key keys);
  current_output_tpm ← _get_window_sum (output_tpm_key keys);
  '(window_start, window_end) ← _get_window_segments;
  let rate_limit_info :=
    {| api_key := api_key;
       input_tpm_used := current_input_tpm;
       output_tpm_used := current_output_tpm;
       rpm_used := current_rpm;
       input_tpm_limit := input_tpm limits;
       output_tpm_limit := output_tpm limits;
       rpm_limit := rpm limits;
       window_start := fromtimestamp (window_start * segment_size);
       window_end := fromtimestamp ((window_end + 1) * segment_size) |} in
  if bool_decide (current_rpm + 1 > rpm limits) then mret (false, rate_limit_info)
  else if bool_decide (current_input_tpm + input_tokens > input_tpm limits)
  then mret (false, rate_limit_info)
  else if bool_decide (current_output_tpm + output_tokens > output_tpm limits)
  then mret (false, rate_limit_info)
  else mret (true, rate_limit_info).

Definition record_usage (api_key : string) (input_tokens output_tokens : Z) : M unit :=
  current_segment ← _get_current_segment;
  let keys := _get_redis_keys api_key in
  let expire_time := window_size * 2 in
  pipeline_execute
    [ HINCRBY (rpm_key keys) (str current_segment) 1;
      HINCRBY (input_tpm_key keys) (str current_segment) input_tokens;
      HINCRBY (output_tpm_key keys) (str current_segment) output_tokens;
      EXPIRE (rpm_key keys) expire_time;
      EXPIRE (input_tpm_key keys) expire_time;
      EXPIRE (output_tpm_key keys) expire_time ];;
  create_task (rpm_key keys);;
  create_task (input_tpm_key keys);;
  create_task (output_tpm_key keys).

Definition get_rate_limit_headers (api_key : string) (rate_limit_info : RateLimitInfo)
  : M (gmap string string) :=
  let reset_time := window_end rate_limit_info in
  now ← datetime_now;
  mret
    (<["X-RateLimit-Limit-Requests" := str (rpm_limit rate_limit_info)]>
    (<["X-RateLimit-Limit-Tokens-Input" := str (input_tpm_limit rate_limit_info)]>
    (<["X-RateLimit-Limit-Tokens-Output" := str (output_tpm_limit rate_limit_info)]>
    (<["X-RateLimit-Remaining-Requests" :=
         str (Z.max 0 (rpm_limit rate_limit_info - rpm_used rate_limit_info))]>
    (<["X-RateLimit-Remaining-Tokens-Input" :=
         str (Z.max 0 (input_tpm_limit rate_limit_info - input_tpm_used rate_limit_info))]>
    (<["X-RateLimit-Remaining-Tokens-Output" :=
         str (Z.max 0 (output_tpm_limit rate_limit_info - output_tpm_used rate_limit_info))]>
    (<["X-RateLimit-Reset-Requests" := isoformat reset_time]>
    (<["X-RateLimit-Reset-Tokens" := isoformat reset_time]>
    (<["Retry-After" := str (int_total_seconds (reset_time - now))]> ∅))))))))).

(** *** server.py *)

Definition templates (request : ChatCompletionRequest) : list string :=
  [ "This is a mock response. Your request has been successfully processed.";
    "I understand your request. This is a system-generated test response.";
    "Processing complete. This is a mock response from the Rate Limiter system.";
    "Message received. Currently using model: " +:+ model request +:+ ".";
    "This is an auto-generated response for testing rate limiting functionality." ].

Definition _generate_mock_content (request : ChatCompletionRequest) : M string :=
  base_content ← random_choice "" (templates request);
  if truthy (max_tokens request) && bool_decide (default 0 (max_tokens request) > 50)
  then
    let additional_content :=
      str_mul " This is additional content to fill the response."
              (Z.to_nat (default 0 (max_tokens request) / 20)) in
    mret (base_content +:+ additional_content)
  else mret base_content.

(** [asyncio.sleep] is a suspension point at which time passes. *)
Definition _generate_mock_response (request : ChatCompletionRequest)
  : M ChatCompletionResponse :=
  tick;;
  let prompt_tokens := estimate_request_tokens request in
  mock_content ← _generate_mock_content request;
  let completion_tokens := count_tokens mock_content in
  created ← int_time_time;
  mret {| object := "chat.completion";
          created := created;
          response_model := model request;
          choices := [ {| index := 0;
                          message := {| role := "assistant";
                                        content := mock_content;
                                        name := None |};
                          finish_reason := "stop" |} ];
          usage := {| prompt_tokens := prompt_tokens;
                      completion_tokens := completion_tokens;
                      total_tokens := prompt_tokens + completion_tokens |};
          system_fingerprint := Some "fp_mock" |}.

(** The handler once the API key has been extracted. *)
Definition chat_completions_with_key (request : ChatCompletionRequest)
    (api_key : string) : M JSONResponse :=
  match Config.API_KEY_LIMITS !! api_key with
  | None => raise (HTTPException 401 "Invalid API key" "invalid_request_error")
  | Some _ =>
      '(allowed, rate_limit_info) ← check_rate_limit api_key request;
      headers ← get_rate_limit_headers api_key rate_limit_info;
      if negb allowed
      then mret {| status_code := 429;
                   headers := headers;
                   response_content := ErrorContent "Rate limit exceeded" "rate_limit_exceeded"
                                           None "rate_limit_exceeded" |}
      else
        mock_response ← _generate_mock_response request;
        record_usage api_key
                     (prompt_tokens (usage mock_response))
                     (completion_tokens (usage mock_response));;
        mret {| status_code := 200;
                headers := headers;
                response_content := CompletionContent mock_response |}
  end.

Definition chat_completions (request : ChatCompletionRequest)
    (authorization : option string) : M JSONResponse :=
  match authorization with
  | Some authorization =>
      if startswith authorization "Bearer "
      then
        let api_key := replace authorization "Bearer " "" in
        chat_completions_with_key request api_key
      else raise (HTTPException 401 "Invalid authorization header"
                                "invalid_request_error")
  | None => raise (HTTPException 401 "Invalid authorization header"
                                 "invalid_request_error")
  end.

(** *** Sequential executions *)

(** What can happen on one node when nothing runs concurrently: a request
    is handled to completion, a spawned clean-up task runs to completion,
    or time passes. *)
Inductive Event :=
| EvRequest (request : ChatCompletionRequest) (authorization : option string)
| EvTask (i : nat)
| EvIdle.

(** Run the [i]-th pending task; an exception in a task is dropped. *)
Definition run_task (i : nat) (w : World) : World :=
  match tasks w !! i with
  | None => w
  | Some key =>
      snd (_clean_old_segments key
             {| redis := redis w; clock := clock w; delays := delays w;
                faults := faults w; rng := rng w; log := log w;
                tasks := take i (tasks w) ++ drop (S i) (tasks w) |})
  end.

Definition step (w : World) (ev : Event) : World :=
  match ev with
  | EvRequest request authorization => snd (chat_completions request authorization w)
  | EvTask i => run_task i w
  | EvIdle => snd (tick w)
  end.

Definition run (evs : list Event) (w : World) : World := foldl step w evs.

End RateLimiter.

(** ** Observations used to state the properties *)

(** The segment of a clock reading, as [_get_current_segment] computes it. *)
Definition seg_of (t : Z) : Z := Z.quot t usec / segment_size.

(** The counter a hash holds for segment [i]; a missing field counts 0. *)
Definition cnt (h : gmap string Z) (i : Z) : Z := default 0 (h !! str i).

(** [f a + f (a+1) + ... + f (a+n-1)] *)
Fixpoint zsum (f : Z → Z) (a : Z) (n : nat) : Z :=
  match n with
  | O => 0
  | S n' => f a + zsum f (a + 1) n'
  end.

(** The sum over the window that ends with segment [e]. *)
Definition win (f : Z → Z) (e : Z) : Z := zsum f (e - segments + 1) (Z.to_nat segments).

(** What [_get_window_sum key] returns when it reads the clock at [t_read]
    and its [HMGET] reaches the store at [t_cmd]. *)
Definition window_sum_at (r : Redis) (t_read t_cmd : Z) (key : string) : Z :=
  sum (default 0 <$>
         hmget t_cmd key
               (str <$> range (seg_of t_read - segments + 1) (seg_of t_read + 1)) r).

(** The usage of a counter key as read at the instant [t]. *)
Definition used (r : Redis) (t : Z) (key : string) : Z := window_sum_at r t t key.

(** The hash stored at a key, whether or not its deadline has passed. *)
Definition raw (r : Redis) (key : string) : gmap string Z := default ∅ (hashes r !! key).

(** The world after the next suspension point. *)
Definition after_tick (w : World) : World := snd (tick w).

(** The world after a round trip that failed / that ran [cmds]. *)
Definition sent_failed (cmds : list Cmd) (w : World) : World :=
  {| redis := redis w; clock := clock w; delays := delays w; faults := tail (faults w);
     rng := rng w; log := log w ++ ((λ c, (c, false)) <$> cmds); tasks := tasks w |}.

Definition sent_ok (cmds : list Cmd) (w : World) : World :=
  {| redis := foldl (apply_cmd (clock w)) (redis w) cmds;
     clock := clock w; delays := delays w; faults := tail (faults w);
     rng := rng w; log := log w ++ ((λ c, (c, true)) <$> cmds); tasks := tasks w |}.

(** The next round trip fails. *)
Definition next_fails (w : World) : bool :=
  match faults w with
  | true :: _ => true
  | _ => false
  end.

(** The three metrics, to state facts about one counter at a time. *)
Inductive Metric := Rpm | InputTpm | OutputTpm.

Definition metric_key (m : Metric) (api_key : string) : string :=
  match m with
  | Rpm => "rate_limit:rpm:" +:+ api_key
  | InputTpm => "rate_limit:input_tpm:" +:+ api_key
  | OutputTpm => "rate_limit:output_tpm:" +:+ api_key
  end.

Definition metric_limit (m : Metric) (l : Limits) : Z :=
  match m with
  | Rpm => rpm l
  | InputTpm => input_tpm l
  | OutputTpm => output_tpm l
  end.

(** The output reservation of a request, as [check_rate_limit] computes it. *)
Definition output_reservation (request : ChatCompletionRequest) : Z :=
  if truthy (max_tokens request) then default 0 (max_tokens request) else 1000.

(** The fields [_get_window_sum] asks for when it reads the clock at [t]. *)
Definition window_fields (t : Z) : list string :=
  str <$> range (seg_of t - segments + 1) (seg_of t + 1).

Definition is_read (c : Cmd) : bool :=
  match c with
  | HMGET _ _ | HKEYS _ => true
  | _ => false
  end.

(** From [w] to [w'] the store and the pending tasks are untouched, time
    did not go back, and only read commands were sent. *)
Definition reads (w w' : World) : Prop :=
  redis w' = redis w ∧ tasks w' = tasks w ∧ clock w ≤ clock w' ∧
  ∃ l, log w' = log w ++ l ∧ Forall (λ e, is_read e.1 = true) l.

(** The snapshot [check_rate_limit] builds from the three sums it read
    and the window it computed at clock reading [t]. *)
Definition snapshot (api_key : string) (u_rpm u_in u_out t : Z) : RateLimitInfo :=
  let limits := Config.get_api_key_limits api_key in
  {| api_key := api_key;
     input_tpm_used := u_in;
     output_tpm_used := u_out;
     rpm_used := u_rpm;
     input_tpm_limit := input_tpm limits;
     output_tpm_limit := output_tpm limits;
     rpm_limit := rpm limits;
     window_start := fromtimestamp ((seg_of t - segments + 1) * segment_size);
     window_end := fromtimestamp ((seg_of t + 1) * segment_size) |}.

(** The admission test on the three sums read. *)
Definition within_limits (encode : string → list Z) (api_key : string) (request : ChatCompletionRequest)
    (u_rpm u_in u_out : Z) : Prop :=
  let limits := Config.get_api_key_limits api_key in
  u_rpm + 1 ≤ rpm limits ∧
  u_in + estimate_request_tokens encode request ≤ input_tpm limits ∧
  u_out + output_reservation request ≤ output_tpm limits.


(** The commands [record_usage] queues for segment [segment]. *)
Definition record_cmds (api_key : string) (segment a b : Z) : list Cmd :=
  let keys := _get_redis_keys api_key in
  [ HINCRBY (rpm_key keys) (str segment) 1;
    HINCRBY (input_tpm_key keys) (str segment) a;
    HINCRBY (output_tpm_key keys) (str segment) b;
    EXPIRE (rpm_key keys) (window_size * 2);
    EXPIRE (input_tpm_key keys) (window_size * 2);
    EXPIRE (output_tpm_key keys) (window_size * 2) ].

(** The store once those commands ran at time [t_cmd]. *)
Definition recorded (t_cmd segment : Z) (api_key : string) (a b : Z) (r : Redis) : Redis :=
  foldl (apply_cmd t_cmd) r (record_cmds api_key segment a b).

(** What [record_usage] adds to each metric. *)
Definition amount (m : Metric) (a b : Z) : Z :=
  match m with
  | Rpm => 1
  | InputTpm => a
  | OutputTpm => b
  end.

(** The world once the three clean-up tasks of [record_usage] are spawned. *)
Definition spawned (api_key : string) (w : World) : World :=
  {| redis := redis w; clock := clock w; delays := delays w; faults := faults w;
     rng := rng w; log := log w;
     tasks := ((tasks w ++ [rpm_key (_get_redis_keys api_key)])
                 ++ [input_tpm_key (_get_redis_keys api_key)])
                 ++ [output_tpm_key (_get_redis_keys api_key)] |}.

(** The world once [random.choice] has drawn. *)
Definition drawn (w : World) : World :=
  {| redis := redis w; clock := clock w; delays := delays w; faults := faults w;
     rng := tail (rng w); log := log w; tasks := tasks w |}.

(** The completion the stub responder builds on the template [base]. *)
Definition mock_content (request : ChatCompletionRequest) (base : string) : string :=
  if truthy (max_tokens request) && bool_decide (default 0 (max_tokens request) > 50)
  then base +:+ str_mul " This is additional content to fill the response."
                        (Z.to_nat (default 0 (max_tokens request) / 20))
  else base.

(** Whatever template is drawn, the stub's completion of [request] has no
    more tokens than the output reservation made for it. *)
Definition fits (encode : string → list Z) (request : ChatCompletionRequest) : Prop :=
  Forall (λ base, count_tokens encode (mock_content request base)
                  ≤ output_reservation request)
         (templates request).


(** What the store holds for a key: its hash and its deadline. *)
Definition kv (r : Redis) (key : string) : option (gmap string Z) * option Z :=
  (hashes r !! key, expiry r !! key).

(** The key a command addresses. *)
Definition cmd_key (c : Cmd) : string :=
  match c with
  | HINCRBY key _ _ | EXPIRE key _ | HMGET key _ | HKEYS key | HDEL key _ => key
  end.

(** What the admission test charges a request on each metric. *)
Definition need (encode : string → list Z) (m : Metric) (request : ChatCompletionRequest) : Z :=
  match m with
  | Rpm => 1
  | InputTpm => estimate_request_tokens encode request
  | OutputTpm => output_reservation request
  end.

(** From [w] to [w'] the store is untouched, no task was spawned and time
    did not go back. *)
Definition quiet (w w' : World) : Prop :=
  redis w' = redis w ∧ tasks w' = tasks w ∧ clock w ≤ clock w'.

(** From [w] to [w'] a request of [api_key] passed the admission test on
    sums read from the store of [w] and its usage was recorded: the record
    read the clock at [t_r], its writes reached the store at [clock w'], and
    it charged the input estimate and the [b] tokens of the completion. *)
Definition served (encode : string → list Z) (api_key : string)
    (request : ChatCompletionRequest) (b : Z) (w w' : World) : Prop :=
  ∃ t_r,
    (∀ m, ∃ t_read t_cmd,
        clock w ≤ t_read ∧ t_read ≤ t_cmd ∧ t_cmd ≤ t_r ∧
        window_sum_at (redis w) t_read t_cmd (metric_key m api_key)
          + need encode m request
        ≤ metric_limit m (Config.get_api_key_limits api_key)) ∧
    t_r ≤ clock w' ∧
    (∃ base, base ∈ templates request ∧
             b = count_tokens encode (mock_content request base)) ∧
    redis w' = recorded (clock w') (seg_of t_r) api_key
                        (estimate_request_tokens encode request) b (redis w).

(** Whether a result is a normal return. *)
Definition is_Ok {A} (r : Res A) : bool :=
  match r with
  | Ok _ => true
  | Raise _ => false
  end.

(** ** Concrete inputs *)

(** An empty store, a clock at 1.7e9 seconds, and nothing scheduled. *)
Definition w_start : World :=
  {| redis := empty_redis; clock := 1700000000000000; delays := [];
     faults := []; rng := []; log := []; tasks := [] |}.

(** The same with a store whose next round trips fail as listed. *)
Definition w_faulty (fs : list bool) : World :=
  {| redis := empty_redis; clock := 1700000000000000; delays := [];
     faults := fs; rng := []; log := []; tasks := [] |}.


Definition hi_request (mt : option Z) : ChatCompletionRequest :=
  {| model := "gpt-3.5-turbo";
     messages := [ {| role := "user"; content := "Hi"; name := None |} ];
     max_tokens := mt |}.

(** ** Invariants of sequential executions *)

(** No counter of the store is negative, and no counter exists for a
    segment later than that of [t]. *)
Definition well_formed (r : Redis) (t : Z) : Prop :=
  ∀ key i, 0 ≤ cnt (raw r key) i ∧ (seg_of t < i → cnt (raw r key) i = 0).

(** For the metric [m] and every API key, the window that ends with the
    segment of [t], and every later window, sums to at most the limit. *)
Definition bounded (m : Metric) (r : Redis) (t : Z) : Prop :=
  ∀ api_key e,
    seg_of t ≤ e →
    win (cnt (raw r (metric_key m api_key))) e
    ≤ metric_limit m (Config.get_api_key_limits api_key).

(** From [r] to [r'] counters were only deleted. *)
Definition shrunk (r r' : Redis) : Prop :=
  ∀ key i, cnt (raw r' key) i = cnt (raw r key) i ∨ cnt (raw r' key) i = 0.

(** The requests of the execution whose completions fit their reservation. *)
Definition event_fits (encode : string → list Z) (ev : Event) : Prop :=
  match ev with
  | EvRequest request _ => fits encode request
  | _ => True
  end.

(** What an event must satisfy for the bound on metric [m] to survive it. *)
Definition event_ok (encode : string → list Z) (m : Metric) (ev : Event) : Prop :=
  match m with
  | OutputTpm => event_fits encode ev
  | _ => True
  end.

(** ** Removing a substring *)




(** ** Further observations *)

(** The first segment of the window that ends with the segment of [t]. *)
Definition window_start_segment (t : Z) : Z := seg_of t - segments + 1.

(** The fields [_clean_old_segments] deletes among [all_fields] when its
    window starts at [start_segment]. *)
Definition old_fields (start_segment : Z) (all_fields : list string) : list string :=
  List.filter (λ field, match int field with
                        | Some segment => bool_decide (segment < start_segment)
                        | None => false
                        end) all_fields.

(** The tokens of one message as [estimate_request_tokens] counts them,
    without the per-message overhead. *)
Definition message_tokens (encode : string → list Z) (m : ChatMessage) : Z :=
  count_tokens encode (role m) + count_tokens encode (content m).

(** [sum(f(x) for x in xs)] *)
Definition sum_with {A} (f : A → Z) (xs : list A) : Z := sum (f <$> xs).

(** Every key that holds a counter has a deadline, which lies more than two
    windows after the start of the segment of any of its counters (up to the
    second a clock reading is truncated by) and at most two windows after
    [t]. *)
Definition deadlines_ok (r : Redis) (t : Z) : Prop :=
  ∀ key z v,
    raw r key !! str z = Some v →
    ∃ d, expiry r !! key = Some d ∧
         (segment_size * z + window_size * 2 - 1) * usec < d ∧
         d ≤ t + window_size * 2 * usec.

(** The world [w] after [d] more microseconds. *)
Definition later (d : Z) (w : World) : World :=
  {| redis := redis w; clock := clock w + d; delays := delays w; faults := faults w;
     rng := rng w; log := log w; tasks := tasks w |}.

(** A store in which usage of [test-key-1] was recorded twice, a hundred
    seconds apart, seen at the time of the second record. *)
Definition w_two_records : World :=
  {| redis := recorded 1700000100000000 340000020 "test-key-1" 8 11
                (recorded 1700000000000000 340000000 "test-key-1" 8 11 empty_redis);
     clock := 1700000100000000; delays := []; faults := []; rng := []; log := [];
     tasks := [] |}.

(** What a run returned, if it returned. *)
Definition returned {A} (o : Res A * World) : option A :=
  match o.1 with
  | Ok a => Some a
  | Raise _ => None
  end.
(** * Properties *)

(** ** The effect monad *)

Lemma bind_Ok {A B} (m : M A) (f : A → M B) w a w' :
  m w = (Ok a, w') → (m ≫= f) w = f a w'.
Proof. intros H. unfold mbind, M_bind. by rewrite H. Qed.

Lemma bind_Raise {A B} (m : M A) (f : A → M B) w e w' :
  m w = (Raise e, w') → (m ≫= f) w = (Raise e, w').
Proof. intros H. unfold mbind, M_bind. by rewrite H. Qed.

Lemma bind_inv {A B} (m : M A) (f : A → M B) w r w' :
  (m ≫= f) w = (r, w') →
  (∃ a w1, m w = (Ok a, w1) ∧ f a w1 = (r, w')) ∨
  (∃ e, m w = (Raise e, w') ∧ r = Raise e).
Proof.
  unfold mbind, M_bind. destruct (m w) as [[a|e] w1]; intros H.
  - left. by exists a, w1.
  - right. exists e. by inversion H.
Qed.

Lemma ret_eq {A} (a : A) w : (mret a : M A) w = (Ok a, w).
Proof. reflexivity. Qed.

(** ** The clock *)

Lemma tick_eq w : tick w = (Ok tt, after_tick w).
Proof. unfold after_tick, tick. by destruct (delays w). Qed.

Lemma after_tick_redis w : redis (after_tick w) = redis w.
Proof. unfold after_tick, tick. by destruct (delays w). Qed.


Lemma after_tick_log w : log (after_tick w) = log w.
Proof. unfold after_tick, tick. by destruct (delays w). Qed.

Lemma after_tick_tasks w : tasks (after_tick w) = tasks w.
Proof. unfold after_tick, tick. by destruct (delays w). Qed.

Lemma after_tick_rng w : rng (after_tick w) = rng w.
Proof. unfold after_tick, tick. by destruct (delays w). Qed.

Lemma after_tick_clock w : clock w ≤ clock (after_tick w).
Proof. unfold after_tick, tick. destruct (delays w); simpl; lia. Qed.

Lemma read_clock_eq w : read_clock w = (Ok (clock (after_tick w)), after_tick w).
Proof. unfold read_clock. by rewrite (bind_Ok _ _ _ _ _ (tick_eq w)). Qed.

Lemma int_time_time_eq w :
  int_time_time w = (Ok (Z.quot (clock (after_tick w)) usec), after_tick w).
Proof. unfold int_time_time. by rewrite (bind_Ok _ _ _ _ _ (read_clock_eq w)). Qed.

Lemma get_current_segment_eq w :
  _get_current_segment w = (Ok (seg_of (clock (after_tick w))), after_tick w).
Proof. unfold _get_current_segment. by rewrite (bind_Ok _ _ _ _ _ (int_time_time_eq w)). Qed.

Lemma get_window_segments_eq w :
  _get_window_segments w =
  (Ok (seg_of (clock (after_tick w)) - segments + 1, seg_of (clock (after_tick w))),
   after_tick w).
Proof.
  unfold _get_window_segments. by rewrite (bind_Ok _ _ _ _ _ (get_current_segment_eq w)).
Qed.

Lemma seg_of_mono t t' : t ≤ t' → seg_of t ≤ seg_of t'.
Proof.
  intros H. unfold seg_of. apply Z.div_le_mono; [done|].
  by apply Z.quot_le_mono.
Qed.

(** ** Store round trips *)

Lemma send_eq cmds w :
  send cmds w =
  if next_fails w then (Raise RedisError, sent_failed cmds w) else (Ok tt, sent_ok cmds w).
Proof.
  unfold send, next_fails, sent_failed, sent_ok.
  destruct (faults w) as [|[] fs]; reflexivity.
Qed.

Lemma round_trip_eq cmds w : round_trip cmds w = send cmds (after_tick w).
Proof. unfold round_trip. by rewrite (bind_Ok _ _ _ _ _ (tick_eq w)). Qed.


Lemma get_window_sum_eq key w :
  _get_window_sum key w =
  let w1 := after_tick w in
  let w2 := after_tick w1 in
  if next_fails w2
  then (Raise RedisError, sent_failed [HMGET key (window_fields (clock w1))] w2)
  else (Ok (window_sum_at (redis w) (clock w1) (clock w2) key),
        sent_ok [HMGET key (window_fields (clock w1))] w2).
Proof.
  unfold _get_window_sum. rewrite (bind_Ok _ _ _ _ _ (get_window_segments_eq w)).
  cbv zeta. unfold redis_hmget.
  set (fs := str <$> range _ _).
  assert (fs = window_fields (clock (after_tick w))) as Hfs by reflexivity.
  destruct (next_fails (after_tick (after_tick w))) eqn:Hf.
  - erewrite bind_Raise; [reflexivity|].
    erewrite bind_Raise; [reflexivity|].
    by rewrite round_trip_eq, send_eq, Hf, Hfs.
  - erewrite bind_Ok; cycle 1.
    { erewrite bind_Ok; [|by rewrite round_trip_eq, send_eq, Hf].
      reflexivity. }
    cbv beta. rewrite ret_eq. rewrite Hfs. f_equal. f_equal.
    unfold window_sum_at, sent_ok. cbn [redis clock foldl apply_cmd].
    rewrite !after_tick_redis. unfold window_fields. f_equal.
Qed.

(** ** Decimal field names *)

Lemma int_str z : int (str z) = Some z.
Proof.
  unfold int, str. rewrite NilZero.isi.
  - simpl. by rewrite DecimalZ.of_to.
  - destruct z as [|p|p]; simpl; [done| |done].
    intros [= H]. by apply (DecimalPos.Unsigned.to_uint_nonnil p).
  - destruct z as [|p|p]; simpl; [done|done|].
    intros [= H]. by apply (DecimalPos.Unsigned.to_uint_nonnil p).
Qed.

Lemma str_inj z z' : str z = str z' → z = z'.
Proof.
  intros H. apply (f_equal int) in H. rewrite !int_str in H. by inversion H.
Qed.

(** ** Sums over windows *)

Lemma foldl_add_shift a l : foldl Z.add a l = a + foldl Z.add 0 l.
Proof.
  revert a. induction l as [|x l IH]; intros a; simpl; [lia|].
  rewrite (IH (a + x)), (IH (0 + x)). lia.
Qed.

Lemma sum_cons x l : sum (x :: l) = x + sum l.
Proof. unfold sum. simpl. apply foldl_add_shift. Qed.

Lemma sum_fmap_seqZ (f : Z → Z) n a : sum (f <$> seqZ a (Z.of_nat n)) = zsum f a n.
Proof.
  revert a. induction n as [|n IH]; intros a.
  - by rewrite seqZ_nil.
  - rewrite seqZ_cons by lia. rewrite fmap_cons, sum_cons. simpl zsum.
    replace (Z.pred (Z.of_nat (S n))) with (Z.of_nat n) by lia.
    by rewrite IH.
Qed.

Lemma zsum_app f a n m : zsum f a (n + m) = zsum f a n + zsum f (a + Z.of_nat n) m.
Proof.
  revert a. induction n as [|n IH]; intros a.
  - simpl. by replace (a + Z.of_nat 0) with a by lia.
  - cbn [Nat.add zsum]. rewrite IH.
    replace (a + 1 + Z.of_nat n) with (a + Z.of_nat (S n)) by lia. lia.
Qed.

Lemma zsum_le f g a n :
  (∀ i, a ≤ i < a + Z.of_nat n → f i ≤ g i) → zsum f a n ≤ zsum g a n.
Proof.
  revert a. induction n as [|n IH]; intros a H; simpl; [lia|].
  specialize (IH (a + 1)). specialize (H a) as Ha.
  assert (zsum f (a + 1) n ≤ zsum g (a + 1) n) by (apply IH; intros; apply H; lia).
  lia.
Qed.

Lemma zsum_ext f g a n :
  (∀ i, a ≤ i < a + Z.of_nat n → f i = g i) → zsum f a n = zsum g a n.
Proof.
  intros H. apply Z.le_antisymm; apply zsum_le; intros i Hi; rewrite (H i Hi); lia.
Qed.

Lemma zsum_zero f a n : (∀ i, a ≤ i < a + Z.of_nat n → f i = 0) → zsum f a n = 0.
Proof.
  revert a. induction n as [|n IH]; intros a H; simpl; [done|].
  rewrite (H a) by lia. rewrite IH; [done|]. intros; apply H; lia.
Qed.

Lemma zsum_nonneg f a n : (∀ i, a ≤ i < a + Z.of_nat n → 0 ≤ f i) → 0 ≤ zsum f a n.
Proof.
  intros H. rewrite <- (zsum_zero (λ _, 0) a n) by done. by apply zsum_le.
Qed.

(** Adding [v] to the counter of segment [s] adds [v] to the sums of the
    windows that hold [s]. *)
Lemma zsum_bump f g s v a n :
  g s = f s + v → (∀ i, i ≠ s → g i = f i) →
  zsum g a n = zsum f a n + if bool_decide (a ≤ s < a + Z.of_nat n) then v else 0.
Proof.
  intros Hs Hne. revert a. induction n as [|n IH]; intros a.
  - simpl. rewrite bool_decide_eq_false_2 by lia. lia.
  - simpl zsum. rewrite IH. destruct (decide (a = s)) as [->|Ha].
    + rewrite Hs. rewrite (bool_decide_eq_false_2 (s + 1 ≤ s < _)) by lia.
      rewrite bool_decide_eq_true_2 by lia. lia.
    + rewrite (Hne a Ha). repeat case_bool_decide; lia.
Qed.

Lemma segments_pos : 0 < segments.
Proof. reflexivity. Qed.

Lemma segment_size_pos : 0 < segment_size.
Proof. reflexivity. Qed.

(** A later window sees no more than an earlier one while nothing is
    recorded beyond the earlier one's last segment. *)
Lemma win_later f c e :
  (∀ i, 0 ≤ f i) → (∀ i, c < i → f i = 0) → c ≤ e → win f e ≤ win f c.
Proof.
  intros Hpos Hz Hce. unfold win.
  pose proof segments_pos as Hs.
  set (n := Z.to_nat segments). assert (Z.of_nat n = segments) as Hn by (unfold n; lia).
  destruct (decide (segments ≤ e - c)) as [Hfar|Hnear].
  - rewrite zsum_zero; [by apply zsum_nonneg|]. intros i Hi. apply Hz. lia.
  - set (k := Z.to_nat (e - c)).
    assert (n = (n - k) + k)%nat as Hsplit by (unfold k; lia).
    assert (n = k + (n - k))%nat as Hsplit' by (unfold k; lia).
    rewrite Hsplit at 1. rewrite zsum_app.
    rewrite (zsum_zero f (_ + _) k); cycle 1.
    { intros i Hi. apply Hz. unfold k in *. lia. }
    rewrite Hsplit' at 2. rewrite zsum_app.
    replace (c - segments + 1 + Z.of_nat k) with (e - segments + 1) by (unfold k; lia).
    assert (0 ≤ zsum f (c - segments + 1) k) by (by apply zsum_nonneg).
    lia.
Qed.

Lemma window_sum_at_win r t_read t_cmd key :
  window_sum_at r t_read t_cmd key = win (cnt (hash_at t_cmd r key)) (seg_of t_read).
Proof.
  unfold window_sum_at, hmget, win, range.
  rewrite <- !list_fmap_compose.
  replace (seg_of t_read + 1 - (seg_of t_read - segments + 1))
    with (Z.of_nat (Z.to_nat segments)) by (pose proof segments_pos; lia).
  by rewrite <- sum_fmap_seqZ.
Qed.

(** ** Steps that only read *)


Lemma reads_refl w : reads w w.
Proof.
  repeat split; [lia|]. exists []. by rewrite app_nil_r.
Qed.

Lemma reads_trans w1 w2 w3 : reads w1 w2 → reads w2 w3 → reads w1 w3.
Proof.
  intros (Hr & Ht & Hc & l & Hl & Hf) (Hr' & Ht' & Hc' & l' & Hl' & Hf').
  repeat split; [congruence|congruence|lia|].
  exists (l ++ l'). split.
  - by rewrite Hl', Hl, app_assoc.
  - by apply Forall_app.
Qed.

Lemma reads_tick w : reads w (after_tick w).
Proof.
  repeat split.
  - apply after_tick_redis.
  - apply after_tick_tasks.
  - apply after_tick_clock.
  - exists []. by rewrite after_tick_log, app_nil_r.
Qed.

Lemma reads_sent_failed c w : is_read c = true → reads w (sent_failed [c] w).
Proof.
  intros Hc. repeat split; simpl; [lia|].
  exists [(c, false)]. split; [done|]. by constructor.
Qed.

Lemma reads_sent_ok c w : is_read c = true → reads w (sent_ok [c] w).
Proof.
  intros Hc. repeat split; simpl; [by destruct c|lia|].
  exists [(c, true)]. split; [done|]. by constructor.
Qed.

Create HintDb reads.
#[local] Hint Resolve reads_refl reads_tick reads_sent_failed reads_sent_ok : reads.

(** Split a hypothesis [(m ≫= f) w = (r, w')] into the run of [m] and the
    run of [f]. *)
Ltac inv_bind H :=
  let a := fresh "a" in
  let w1 := fresh "w" in
  let e := fresh "e" in
  let H1 := fresh H in
  let Heq := fresh "Heq" in
  apply bind_inv in H as [(a & w1 & H1 & H)|(e & H & Heq)];
  [|first [subst | inversion Heq; subst]].

Lemma get_window_segments_reads w r w' : _get_window_segments w = (r, w') → reads w w'.
Proof. rewrite get_window_segments_eq. intros [= _ <-]. apply reads_tick. Qed.

Lemma get_window_sum_reads key w r w' : _get_window_sum key w = (r, w') → reads w w'.
Proof.
  rewrite get_window_sum_eq. cbv zeta.
  destruct (next_fails _); intros [= _ <-];
    (eapply reads_trans; [apply reads_tick|]);
    (eapply reads_trans; [apply reads_tick|]); auto with reads.
Qed.

(** The value a successful [_get_window_sum] returns. *)
Lemma get_window_sum_Ok key w s w' :
  _get_window_sum key w = (Ok s, w') →
  ∃ t_read t_cmd,
    clock w ≤ t_read ∧ t_read ≤ t_cmd ∧ t_cmd = clock w' ∧
    s = window_sum_at (redis w) t_read t_cmd key.
Proof.
  rewrite get_window_sum_eq. cbv zeta.
  destruct (next_fails _); intros [= <- <-].
  exists (clock (after_tick w)), (clock (after_tick (after_tick w))).
  repeat split; auto using after_tick_clock.
Qed.

(** [_get_window_sum] returns whenever its round trip does not fail. *)
Lemma get_window_sum_total key w :
  next_fails (after_tick (after_tick w)) = false →
  ∃ s w', _get_window_sum key w = (Ok s, w').
Proof. intros H. rewrite get_window_sum_eq. cbv zeta. rewrite H. eauto. Qed.

Lemma metric_key_inj m k m' k' : metric_key m k = metric_key m' k' → m = m' ∧ k = k'.
Proof. destruct m, m'; cbn; intros H; inversion H; done. Qed.

Lemma metric_key_ne m m' k : m ≠ m' → metric_key m k ≠ metric_key m' k.
Proof. intros Hne H. by apply metric_key_inj in H as [? _]. Qed.

Lemma get_window_sum_log key w res w' :
  _get_window_sum key w = (res, w') →
  ∃ fields, log w' = log w ++ [(HMGET key fields, is_Ok res)].
Proof.
  rewrite get_window_sum_eq. cbv zeta.
  destruct (next_fails _); intros [= <- <-]; eexists; simpl;
    by rewrite !after_tick_log.
Qed.

Section CheckRateLimit.
Variable encode : string → list Z.


Lemma check_rate_limit_Ok api_key request w u1 w1 u2 w2 u3 w3 :
  _get_window_sum (rpm_key (_get_redis_keys api_key)) w = (Ok u1, w1) →
  _get_window_sum (input_tpm_key (_get_redis_keys api_key)) w1 = (Ok u2, w2) →
  _get_window_sum (output_tpm_key (_get_redis_keys api_key)) w2 = (Ok u3, w3) →
  check_rate_limit encode api_key request w =
  (Ok (bool_decide (within_limits encode api_key request u1 u2 u3),
       snapshot api_key u1 u2 u3 (clock (after_tick w3))),
   after_tick w3).
Proof.
  intros H1 H2 H3. unfold check_rate_limit. cbv zeta.
  rewrite (bind_Ok _ _ _ _ _ H1), (bind_Ok _ _ _ _ _ H2), (bind_Ok _ _ _ _ _ H3).
  rewrite (bind_Ok _ _ _ _ _ (get_window_segments_eq w3)).
  cbv beta iota. fold (output_reservation request).
  fold (snapshot api_key u1 u2 u3 (clock (after_tick w3))).
  unfold within_limits. cbv zeta.
  repeat case_bool_decide; rewrite ?ret_eq; first [reflexivity | exfalso; lia].
Qed.

(** Whatever [check_rate_limit] returns, it results from three window
    sums read in turn and one more look at the clock. *)
Lemma check_rate_limit_inv api_key request w res w' :
  check_rate_limit encode api_key request w = (res, w') →
  (∃ u1 w1 u2 w2 u3 w3,
      _get_window_sum (rpm_key (_get_redis_keys api_key)) w = (Ok u1, w1) ∧
      _get_window_sum (input_tpm_key (_get_redis_keys api_key)) w1 = (Ok u2, w2) ∧
      _get_window_sum (output_tpm_key (_get_redis_keys api_key)) w2 = (Ok u3, w3) ∧
      w' = after_tick w3 ∧
      res = Ok (bool_decide (within_limits encode api_key request u1 u2 u3),
                snapshot api_key u1 u2 u3 (clock (after_tick w3)))) ∨
  (res = Raise RedisError ∧ reads w w' ∧
   ∃ l c, log w' = log w ++ l ++ [(c, false)] ∧ is_read c = true ∧
          Forall (λ e, is_read e.1 = true ∧ e.2 = true ∧ cmd_key e.1 ≠ cmd_key c) l).
Proof.
  intros H.
  pose proof (metric_key_ne Rpm InputTpm api_key) as N12.
  pose proof (metric_key_ne Rpm OutputTpm api_key) as N13.
  pose proof (metric_key_ne InputTpm OutputTpm api_key) as N23.
  assert (∀ key v e0 v', _get_window_sum key v = (Raise e0, v') → e0 = RedisError)
    as Hexc.
  { intros key v e0 v' Hv. rewrite get_window_sum_eq in Hv. cbv zeta in Hv.
    by destruct (next_fails _); inversion Hv. }
  destruct (_get_window_sum (rpm_key (_get_redis_keys api_key)) w)
    as [[u1|e1] w1] eqn:H1; cycle 1.
  { right. unfold check_rate_limit in H. cbv zeta in H.
    rewrite (bind_Raise _ _ _ _ _ H1) in H. inversion H; subst.
    split; [f_equal; by eapply Hexc|]. split; [by eapply get_window_sum_reads|].
    apply get_window_sum_log in H1 as [f1 L1].
    eexists [], _. split; [by rewrite L1|]. split; [reflexivity|constructor]. }
  destruct (_get_window_sum (input_tpm_key (_get_redis_keys api_key)) w1)
    as [[u2|e2] w2] eqn:H2; cycle 1.
  { right. unfold check_rate_limit in H. cbv zeta in H.
    rewrite (bind_Ok _ _ _ _ _ H1), (bind_Raise _ _ _ _ _ H2) in H.
    inversion H; subst.
    split; [f_equal; by eapply Hexc|].
    split; [eapply reads_trans; by eapply get_window_sum_reads|].
    apply get_window_sum_log in H1 as [f1 L1].
    apply get_window_sum_log in H2 as [f2 L2].
    eexists [(HMGET (rpm_key (_get_redis_keys api_key)) f1, true)], _.
    split; [rewrite L2, L1, <- !app_assoc; reflexivity|].
    split; [reflexivity|].
    repeat constructor; simpl; apply N12; done. }
  destruct (_get_window_sum (output_tpm_key (_get_redis_keys api_key)) w2)
    as [[u3|e3] w3] eqn:H3; cycle 1.
  { right. unfold check_rate_limit in H. cbv zeta in H.
    rewrite (bind_Ok _ _ _ _ _ H1), (bind_Ok _ _ _ _ _ H2),
      (bind_Raise _ _ _ _ _ H3) in H.
    inversion H; subst.
    split; [f_equal; by eapply Hexc|].
    split; [eapply reads_trans; [|by eapply get_window_sum_reads];
             eapply reads_trans; by eapply get_window_sum_reads|].
    apply get_window_sum_log in H1 as [f1 L1].
    apply get_window_sum_log in H2 as [f2 L2].
    apply get_window_sum_log in H3 as [f3 L3].
    eexists [(HMGET (rpm_key (_get_redis_keys api_key)) f1, true);
            (HMGET (input_tpm_key (_get_redis_keys api_key)) f2, true)], _.
    split; [rewrite L3, L2, L1, <- !app_assoc; reflexivity|].
    split; [reflexivity|].
    repeat constructor; simpl; [apply N13|apply N23]; done. }
  left. rewrite (check_rate_limit_Ok _ _ _ _ _ _ _ _ _ H1 H2 H3) in H.
  inversion H; subst. by exists u1, w1, u2, w2, u3, w3.
Qed.

Lemma check_rate_limit_reads api_key request w res w' :
  check_rate_limit encode api_key request w = (res, w') → reads w w'.
Proof.
  intros H. apply check_rate_limit_inv in H
    as [(u1 & w1 & u2 & w2 & u3 & w3 & H1 & H2 & H3 & -> & _)|(_ & H & _)]; [|done].
  eapply reads_trans; [by eapply get_window_sum_reads|].
  eapply reads_trans; [by eapply get_window_sum_reads|].
  eapply reads_trans; [by eapply get_window_sum_reads|].
  apply reads_tick.
Qed.

End CheckRateLimit.

(** ** Recording *)

Lemma create_task_eq key w :
  create_task key w =
  (Ok tt, {| redis := redis w; clock := clock w; delays := delays w;
             faults := faults w; rng := rng w; log := log w;
             tasks := tasks w ++ [key] |}).
Proof. reflexivity. Qed.

Lemma record_usage_eq api_key a b w :
  record_usage api_key a b w =
  let w1 := after_tick w in
  let w2 := after_tick w1 in
  let cmds := record_cmds api_key (seg_of (clock w1)) a b in
  if next_fails w2
  then (Raise RedisError, sent_failed cmds w2)
  else (Ok tt, spawned api_key (sent_ok cmds w2)).
Proof.
  unfold record_usage. rewrite (bind_Ok _ _ _ _ _ (get_current_segment_eq w)).
  cbv zeta. fold (record_cmds api_key (seg_of (clock (after_tick w))) a b).
  unfold pipeline_execute.
  destruct (next_fails (after_tick (after_tick w))) eqn:Hf.
  - erewrite bind_Raise; [reflexivity|]. by rewrite round_trip_eq, send_eq, Hf.
  - erewrite bind_Ok; [|by rewrite round_trip_eq, send_eq, Hf].
    reflexivity.
Qed.

(** ** Headers *)

Section Headers.
Variable isoformat : Z → string.

Lemma get_rate_limit_headers_eq api_key info w :
  ∃ hs,
    get_rate_limit_headers isoformat api_key info w = (Ok hs, after_tick w) ∧
    hs !! "X-RateLimit-Limit-Requests" = Some (str (rpm_limit info)) ∧
    hs !! "X-RateLimit-Limit-Tokens-Input" = Some (str (input_tpm_limit info)) ∧
    hs !! "X-RateLimit-Limit-Tokens-Output" = Some (str (output_tpm_limit info)) ∧
    hs !! "X-RateLimit-Remaining-Requests"
      = Some (str (Z.max 0 (rpm_limit info - rpm_used info))) ∧
    hs !! "X-RateLimit-Remaining-Tokens-Input"
      = Some (str (Z.max 0 (input_tpm_limit info - input_tpm_used info))) ∧
    hs !! "X-RateLimit-Remaining-Tokens-Output"
      = Some (str (Z.max 0 (output_tpm_limit info - output_tpm_used info))) ∧
    hs !! "X-RateLimit-Reset-Requests" = Some (isoformat (window_end info)) ∧
    hs !! "X-RateLimit-Reset-Tokens" = Some (isoformat (window_end info)) ∧
    hs !! "Retry-After"
      = Some (str (int_total_seconds (window_end info - clock (after_tick w)))).
Proof.
  unfold get_rate_limit_headers, datetime_now. cbv zeta.
  rewrite (bind_Ok _ _ _ _ _ (read_clock_eq w)). rewrite ret_eq.
  eexists. split; [reflexivity|].
  repeat split; by simplify_map_eq.
Qed.

Lemma get_rate_limit_headers_reads api_key info w r w' :
  get_rate_limit_headers isoformat api_key info w = (r, w') → reads w w'.
Proof.
  destruct (get_rate_limit_headers_eq api_key info w) as (hs & -> & _).
  intros [= _ <-]. apply reads_tick.
Qed.

End Headers.

(** ** The store, one key at a time *)


Lemma expired_kv r r' t key : kv r key = kv r' key → expired t r key = expired t r' key.
Proof. unfold kv, expired. by intros [= _ ->]. Qed.

Lemma hash_at_kv r r' t key : kv r key = kv r' key → hash_at t r key = hash_at t r' key.
Proof.
  intros H. unfold hash_at. rewrite (expired_kv _ _ _ _ H).
  unfold kv in H. by inversion H as [[H1 H2]]; rewrite H1.
Qed.

Lemma raw_kv r r' key : kv r key = kv r' key → raw r key = raw r' key.
Proof. unfold kv, raw. by intros [= -> _]. Qed.

Lemma expired_mono t t' r key : t ≤ t' → expired t r key = true → expired t' r key = true.
Proof.
  unfold expired. destruct (expiry r !! key); [|done].
  intros Ht H. apply bool_decide_eq_true in H. apply bool_decide_eq_true. lia.
Qed.

Lemma hash_at_cases t r key :
  (expired t r key = true ∧ hash_at t r key = ∅) ∨
  (expired t r key = false ∧ hash_at t r key = raw r key).
Proof. unfold hash_at, raw. destruct (expired t r key); auto. Qed.

Lemma cnt_empty i : cnt ∅ i = 0.
Proof. unfold cnt. by rewrite lookup_empty. Qed.

Lemma cnt_insert h s v i :
  cnt (<[str s := v]> h) i = if decide (i = s) then v else cnt h i.
Proof.
  unfold cnt. destruct (decide (i = s)) as [->|Hne].
  - by rewrite lookup_insert_eq.
  - rewrite lookup_insert_ne; [done|]. intros H. by apply str_inj in H.
Qed.

Lemma apply_cmd_other t r c key : cmd_key c ≠ key → kv (apply_cmd t r c) key = kv r key.
Proof.
  unfold kv. destruct c as [k f v|k s|k fs|k|k fs]; simpl; intros Hne; try done.
  - unfold hincrby. simpl. rewrite lookup_insert_ne by done.
    destruct (expired t r k); [by rewrite lookup_delete_ne|done].
  - unfold expire. destruct (expired t r k); [done|].
    destruct (hashes r !! k); [|done]. simpl. by rewrite lookup_insert_ne.
  - unfold hdel. cbv zeta. case_decide; simpl.
    + by rewrite !lookup_delete_ne.
    + by rewrite lookup_insert_ne.
Qed.

Lemma hincrby_kv t key f v r :
  kv (hincrby t key f v r) key =
  (Some (<[f := default 0 (hash_at t r key !! f) + v]> (hash_at t r key)),
   if expired t r key then None else expiry r !! key).
Proof.
  unfold kv, hincrby. simpl. rewrite lookup_insert_eq.
  destruct (expired t r key); [by rewrite lookup_delete_eq|done].
Qed.

Lemma hincrby_live t key f v r : expired t (hincrby t key f v r) key = false.
Proof.
  unfold expired at 1, hincrby. cbn [expiry].
  destruct (expired t r key) eqn:E; [by rewrite lookup_delete_eq|].
  unfold expired in E. by destruct (expiry r !! key).
Qed.

Lemma expire_kv t key s r h :
  hashes r !! key = Some h → expired t r key = false →
  kv (expire t key s r) key = (Some h, Some (t + s * usec)).
Proof.
  intros Hh He. unfold kv, expire. rewrite He, Hh. simpl.
  by rewrite Hh, lookup_insert_eq.
Qed.

(** After the writes of [record_usage], each of the three counters holds
    what it held, plus the recorded amount in the field of the segment, and
    its deadline is two windows away. *)
Lemma recorded_kv m t s api_key a b r :
  let key := metric_key m api_key in
  kv (recorded t s api_key a b r) key =
  (Some (<[str s := cnt (hash_at t r key) s + amount m a b]> (hash_at t r key)),
   Some (t + window_size * 2 * usec)).
Proof.
  cbv zeta. unfold recorded, record_cmds. cbv zeta.
  change (rpm_key (_get_redis_keys api_key)) with (metric_key Rpm api_key).
  change (input_tpm_key (_get_redis_keys api_key)) with (metric_key InputTpm api_key).
  change (output_tpm_key (_get_redis_keys api_key)) with (metric_key OutputTpm api_key).
  cbn [foldl apply_cmd].
  set (r1 := hincrby t (metric_key Rpm api_key) (str s) 1 r).
  set (r2 := hincrby t (metric_key InputTpm api_key) (str s) a r1).
  set (r3 := hincrby t (metric_key OutputTpm api_key) (str s) b r2).
  set (r4 := expire t (metric_key Rpm api_key) (window_size * 2) r3).
  set (r5 := expire t (metric_key InputTpm api_key) (window_size * 2) r4).
  set (r6 := expire t (metric_key OutputTpm api_key) (window_size * 2) r5).
  assert (∀ m' c rr, cmd_key c = metric_key m' api_key → m' ≠ m →
            kv (apply_cmd t rr c) (metric_key m api_key) = kv rr (metric_key m api_key))
    as Hother.
  { intros m' c rr Hc Hne. apply apply_cmd_other. rewrite Hc. by apply metric_key_ne. }
  pose proof (Hother Rpm (HINCRBY (metric_key Rpm api_key) (str s) 1) r eq_refl) as H1.
  pose proof (Hother InputTpm (HINCRBY (metric_key InputTpm api_key) (str s) a) r1 eq_refl) as H2.
  pose proof (Hother OutputTpm (HINCRBY (metric_key OutputTpm api_key) (str s) b) r2 eq_refl) as H3.
  pose proof (Hother Rpm (EXPIRE (metric_key Rpm api_key) (window_size * 2)) r3 eq_refl) as H4.
  pose proof (Hother InputTpm (EXPIRE (metric_key InputTpm api_key) (window_size * 2)) r4 eq_refl) as H5.
  pose proof (Hother OutputTpm (EXPIRE (metric_key OutputTpm api_key) (window_size * 2)) r5 eq_refl) as H6.
  cbn [apply_cmd] in H1, H2, H3, H4, H5, H6.
  fold r1 in H1. fold r2 in H2. fold r3 in H3. fold r4 in H4. fold r5 in H5. fold r6 in H6.
  destruct m; cbn [amount].
  - rewrite H6, H5 by done.
    assert (kv r3 (metric_key Rpm api_key) = kv r1 (metric_key Rpm api_key)) as E
      by (by rewrite H3, H2).
    pose proof (hincrby_kv t (metric_key Rpm api_key) (str s) 1 r) as Hk. fold r1 in Hk.
    unfold r4. erewrite expire_kv; [reflexivity| |].
    + rewrite Hk in E. unfold kv in E. by inversion E.
    + rewrite (expired_kv _ _ _ _ E). apply hincrby_live.
  - rewrite H6 by done.
    assert (kv r4 (metric_key InputTpm api_key) = kv r2 (metric_key InputTpm api_key)) as E
      by (by rewrite H4, H3).
    pose proof (hincrby_kv t (metric_key InputTpm api_key) (str s) a r1) as Hk. fold r2 in Hk.
    assert (kv r1 (metric_key InputTpm api_key) = kv r (metric_key InputTpm api_key)) as E1
      by (by rewrite H1).
    rewrite (hash_at_kv _ _ _ _ E1) in Hk.
    unfold r5. erewrite expire_kv; [reflexivity| |].
    + rewrite Hk in E. unfold kv in E. by inversion E.
    + rewrite (expired_kv _ _ _ _ E). apply hincrby_live.
  - assert (kv r5 (metric_key OutputTpm api_key) = kv r3 (metric_key OutputTpm api_key)) as E
      by (by rewrite H5, H4).
    pose proof (hincrby_kv t (metric_key OutputTpm api_key) (str s) b r2) as Hk. fold r3 in Hk.
    assert (kv r2 (metric_key OutputTpm api_key) = kv r (metric_key OutputTpm api_key)) as E1
      by (by rewrite H2, H1).
    rewrite (hash_at_kv _ _ _ _ E1) in Hk.
    unfold r6. erewrite expire_kv; [reflexivity| |].
    + rewrite Hk in E. unfold kv in E. by inversion E.
    + rewrite (expired_kv _ _ _ _ E). apply hincrby_live.
Qed.

(** The writes of [record_usage] touch no other key. *)
Lemma recorded_other t s api_key a b r key :
  (∀ m, key ≠ metric_key m api_key) → kv (recorded t s api_key a b r) key = kv r key.
Proof.
  intros Hne. unfold recorded, record_cmds. cbv zeta. cbn [foldl].
  pose proof (Hne Rpm). pose proof (Hne InputTpm). pose proof (Hne OutputTpm).
  rewrite !apply_cmd_other; done.
Qed.

(** ** The stub responder *)

Lemma reads_quiet w w' : reads w w' → quiet w w'.
Proof. intros (? & ? & ? & _). by repeat split. Qed.

Lemma quiet_refl w : quiet w w.
Proof. repeat split; lia. Qed.

Lemma quiet_trans w1 w2 w3 : quiet w1 w2 → quiet w2 w3 → quiet w1 w3.
Proof. intros (? & ? & ?) (? & ? & ?). repeat split; [congruence|congruence|lia]. Qed.

Lemma random_choice_spec (xs : list string) w :
  xs ≠ [] →
  ∃ x w', random_choice "" xs w = (Ok x, w') ∧ x ∈ xs ∧ reads w w' ∧ log w' = log w.
Proof.
  intros Hxs. unfold random_choice. destruct (rng w) as [|n ns] eqn:Hr.
  - destruct xs as [|x xs]; [done|]. exists x, w. simpl.
    repeat split; [by left|lia|]. exists []. by rewrite app_nil_r.
  - eexists _, _. split; [reflexivity|]. split.
    + apply list_elem_of_In, nth_In. apply Nat.mod_upper_bound. by destruct xs.
    + repeat split; simpl; [lia|]. exists []. by rewrite app_nil_r.
Qed.

Section Responder.
Variable encode : string → list Z.

Lemma count_tokens_nonneg text : 0 ≤ count_tokens encode text.
Proof. unfold count_tokens. lia. Qed.

Lemma estimate_request_tokens_nonneg request :
  0 ≤ estimate_request_tokens encode request.
Proof.
  unfold estimate_request_tokens. cbv zeta.
  assert (∀ l a, 0 ≤ a →
            0 ≤ foldl (λ total_tokens message,
                         total_tokens + count_tokens encode (role message)
                           + count_tokens encode (content message) + 4) a l) as H.
  { induction l as [|x l IH]; intros a Ha; simpl; [done|].
    apply IH. pose proof (count_tokens_nonneg (role x)).
    pose proof (count_tokens_nonneg (content x)). lia. }
  specialize (H (messages request) 0). lia.
Qed.

Lemma generate_mock_content_spec request w :
  ∃ base w',
    _generate_mock_content request w = (Ok (mock_content request base), w') ∧
    base ∈ templates request ∧ reads w w' ∧ log w' = log w.
Proof.
  destruct (random_choice_spec (templates request) w) as (x & w' & Hc & Hx & Hr);
    [done|].
  exists x, w'. split; [|done].
  unfold _generate_mock_content. rewrite (bind_Ok _ _ _ _ _ Hc).
  unfold mock_content. by destruct (_ && _).
Qed.

Lemma generate_mock_response_spec request w :
  ∃ resp w',
    _generate_mock_response encode request w = (Ok resp, w') ∧ reads w w' ∧
    log w' = log w ∧
    prompt_tokens (usage resp) = estimate_request_tokens encode request ∧
    ∃ base, base ∈ templates request ∧
            completion_tokens (usage resp)
            = count_tokens encode (mock_content request base).
Proof.
  destruct (generate_mock_content_spec request (after_tick w))
    as (base & w1 & Hc & Hb & Hr & Hl).
  eexists _, (after_tick w1). split.
  - unfold _generate_mock_response. rewrite (bind_Ok _ _ _ _ _ (tick_eq w)).
    cbv zeta. rewrite (bind_Ok _ _ _ _ _ Hc).
    rewrite (bind_Ok _ _ _ _ _ (int_time_time_eq w1)). reflexivity.
  - split; [|split; [|split; [done|by exists base]]].
    + eapply reads_trans; [apply reads_tick|].
      eapply reads_trans; [done|apply reads_tick].
    + by rewrite after_tick_log, Hl, after_tick_log.
Qed.

End Responder.

(** ** The handler *)

Section Handler.
Variable encode : string → list Z.
Variable isoformat : Z → string.

(** The three ways a request with a registered key can go: the admission
    check fails on the store, the request is rejected, or it is let through,
    answered by the stub and recorded (which can fail on the store). *)
Lemma chat_completions_with_key_cases request k w lims :
  Config.API_KEY_LIMITS !! k = Some lims →
  (∃ w', check_rate_limit encode k request w = (Raise RedisError, w') ∧
         chat_completions_with_key encode isoformat request k w
         = (Raise RedisError, w')) ∨
  (∃ info w1 hs,
      check_rate_limit encode k request w = (Ok (false, info), w1) ∧
      get_rate_limit_headers isoformat k info w1 = (Ok hs, after_tick w1) ∧
      chat_completions_with_key encode isoformat request k w
      = (Ok {| status_code := 429; headers := hs;
               response_content := ErrorContent "Rate limit exceeded"
                                     "rate_limit_exceeded" None
                                     "rate_limit_exceeded" |},
         after_tick w1)) ∨
  (∃ info w1 hs resp w3,
      check_rate_limit encode k request w = (Ok (true, info), w1) ∧
      get_rate_limit_headers isoformat k info w1 = (Ok hs, after_tick w1) ∧
      _generate_mock_response encode request (after_tick w1) = (Ok resp, w3) ∧
      ((∃ w', record_usage k (prompt_tokens (usage resp))
                           (completion_tokens (usage resp)) w3
              = (Raise RedisError, w') ∧
              chat_completions_with_key encode isoformat request k w
              = (Raise RedisError, w')) ∨
       (∃ w', record_usage k (prompt_tokens (usage resp))
                           (completion_tokens (usage resp)) w3
              = (Ok tt, w') ∧
              chat_completions_with_key encode isoformat request k w
              = (Ok {| status_code := 200; headers := hs;
                       response_content := CompletionContent resp |}, w')))).
Proof.
  intros Hk. unfold chat_completions_with_key. rewrite Hk.
  destruct (check_rate_limit encode k request w) as [[[allowed info]|e] w1] eqn:Hc.
  - rewrite (bind_Ok _ _ _ _ _ Hc). cbv beta iota.
    destruct (get_rate_limit_headers_eq isoformat k info w1) as (hs & Hh & _).
    rewrite (bind_Ok _ _ _ _ _ Hh).
    destruct allowed; cbn [negb].
    + destruct (generate_mock_response_spec encode request (after_tick w1))
        as (resp & w3 & Hm & _).
      rewrite (bind_Ok _ _ _ _ _ Hm).
      destruct (record_usage k (prompt_tokens (usage resp))
                  (completion_tokens (usage resp)) w3) as [[[]|e] w'] eqn:Hr.
      * rewrite (bind_Ok _ _ _ _ _ Hr). right. right.
        exists info, w1, hs, resp, w3. repeat split; [done..|].
        right. by exists w'.
      * rewrite (bind_Raise _ _ _ _ _ Hr).
        assert (e = RedisError) as ->.
        { rewrite record_usage_eq in Hr. cbv zeta in Hr.
          by destruct (next_fails _); inversion Hr. }
        right. right. exists info, w1, hs, resp, w3. repeat split; [done..|].
        left. by exists w'.
    + right. left. by exists info, w1, hs.
  - rewrite (bind_Raise _ _ _ _ _ Hc). left. exists w1.
    apply check_rate_limit_inv in Hc as Hc'.
    destruct Hc' as [(? & ? & ? & ? & ? & ? & _ & _ & _ & _ & ?)|([= ->] & _)]; [done|].
    done.
Qed.

(** A request either fails authentication, leaving the world as it is, or
    is handled under the key extracted from its header. *)
Lemma chat_completions_cases request authorization w :
  (∃ msg, chat_completions encode isoformat request authorization w
          = (Raise (HTTPException 401 msg "invalid_request_error"), w)) ∨
  (∃ a lims, authorization = Some a ∧ startswith a "Bearer " = true ∧
             Config.API_KEY_LIMITS !! replace a "Bearer " "" = Some lims ∧
             chat_completions encode isoformat request authorization w
             = chat_completions_with_key encode isoformat request
                 (replace a "Bearer " "") w).
Proof.
  unfold chat_completions. destruct authorization as [a|]; [|left; by eexists].
  destruct (startswith a "Bearer ") eqn:Hs; [|left; by eexists].
  cbv zeta.
  destruct (Config.API_KEY_LIMITS !! replace a "Bearer " "") as [lims|] eqn:Hk.
  - right. by exists a, lims.
  - left. unfold chat_completions_with_key. rewrite Hk. by eexists.
Qed.

End Handler.

(** ** What is sent to the store *)


Section CheckLog.
Variable encode : string → list Z.

(** A successful check sent three reads that all ran. *)
Lemma check_rate_limit_log_Ok api_key request w x w' :
  check_rate_limit encode api_key request w = (Ok x, w') →
  ∃ l, log w' = log w ++ l ∧ Forall (λ e, is_read e.1 = true ∧ e.2 = true) l.
Proof.
  intros H. apply check_rate_limit_inv in H
    as [(u1 & w1 & u2 & w2 & u3 & w3 & H1 & H2 & H3 & -> & _)|([=] & _)].
  apply get_window_sum_log in H1 as [f1 L1].
  apply get_window_sum_log in H2 as [f2 L2].
  apply get_window_sum_log in H3 as [f3 L3].
  eexists. split.
  - rewrite after_tick_log, L3, L2, L1, <- !app_assoc. reflexivity.
  - simpl. repeat constructor.
Qed.

(** A check that raises stopped at its first failed read: the reads before
    it ran and addressed other keys, and nothing was sent after it. *)
Lemma check_rate_limit_log_Raise api_key request w e w' :
  check_rate_limit encode api_key request w = (Raise e, w') →
  ∃ l c, log w' = log w ++ l ++ [(c, false)] ∧ is_read c = true ∧
         Forall (λ e, is_read e.1 = true ∧ e.2 = true ∧ cmd_key e.1 ≠ cmd_key c) l.
Proof.
  intros H. by apply check_rate_limit_inv in H
    as [(? & ? & ? & ? & ? & ? & _ & _ & _ & _ & ?)|(_ & _ & H)].
Qed.

End CheckLog.

(** A record sends its six writes at once; either all ran or none did. *)
Lemma record_usage_log api_key a b w res w' :
  record_usage api_key a b w = (res, w') →
  ∃ l, log w' = log w ++ l ∧ Forall (λ e, is_read e.1 = false) l.
Proof.
  rewrite record_usage_eq. cbv zeta.
  destruct (next_fails _); intros [= _ <-]; eexists; simpl;
    rewrite !after_tick_log; (split; [reflexivity|]); repeat constructor.
Qed.

Lemma record_usage_Raise api_key a b w e w' :
  record_usage api_key a b w = (Raise e, w') → quiet w w'.
Proof.
  rewrite record_usage_eq. cbv zeta.
  destruct (next_fails _); intros [= _ <-].
  repeat split; simpl.
  - by rewrite !after_tick_redis.
  - by rewrite !after_tick_tasks.
  - etrans; apply after_tick_clock.
Qed.

(** * The claims *)




(** What a returning [check_rate_limit] has done. *)
Lemma check_rate_limit_sound encode api_key request w allowed info w' :
  check_rate_limit encode api_key request w = (Ok (allowed, info), w') →
  (∃ w1 w2 w3,
      _get_window_sum (metric_key Rpm api_key) w = (Ok (rpm_used info), w1) ∧
      _get_window_sum (metric_key InputTpm api_key) w1
      = (Ok (input_tpm_used info), w2) ∧
      _get_window_sum (metric_key OutputTpm api_key) w2
      = (Ok (output_tpm_used info), w3)) ∧
  rpm_limit info = rpm (Config.get_api_key_limits api_key) ∧
  input_tpm_limit info = input_tpm (Config.get_api_key_limits api_key) ∧
  output_tpm_limit info = output_tpm (Config.get_api_key_limits api_key) ∧
  (allowed = true ↔
     rpm_used info + 1 ≤ rpm_limit info ∧
     input_tpm_used info + estimate_request_tokens encode request
       ≤ input_tpm_limit info ∧
     output_tpm_used info + output_reservation request ≤ output_tpm_limit info).
Proof.
  intros H.
  apply check_rate_limit_inv in H
    as [(u1 & w1 & u2 & w2 & u3 & w3 & H1 & H2 & H3 & -> & [= -> ->])|([=] & _)].
  split; [by exists w1, w2, w3|]. simpl.
  split; [done|]. split; [done|]. split; [done|].
  apply bool_decide_eq_true.
Qed.


(** C7.  Each of the three [X-RateLimit-Remaining-*] headers is
    [max(0, limit - used)] of its metric in the snapshot. *)
Theorem remaining_headers_are_clamped_differences isoformat api_key info w :
  ∃ hs w',
    get_rate_limit_headers isoformat api_key info w = (Ok hs, w') ∧
    hs !! "X-RateLimit-Remaining-Requests"
      = Some (str (Z.max 0 (rpm_limit info - rpm_used info))) ∧
    hs !! "X-RateLimit-Remaining-Tokens-Input"
      = Some (str (Z.max 0 (input_tpm_limit info - input_tpm_used info))) ∧
    hs !! "X-RateLimit-Remaining-Tokens-Output"
      = Some (str (Z.max 0 (output_tpm_limit info - output_tpm_used info))).
Proof.
  destruct (get_rate_limit_headers_eq isoformat api_key info w)
    as (hs & H & _ & _ & _ & H1 & H2 & H3 & _).
  by exists hs, (after_tick w).
Qed.

(** C8, amended.  The output reservation used in admission is [max_tokens]
    when it is set and not zero, and 1000 when it is unset or zero. *)
Theorem output_reservation_is_max_tokens_unless_unset_or_zero
    encode api_key request w allowed info w' :
  check_rate_limit encode api_key request w = (Ok (allowed, info), w') →
  let reserved := match max_tokens request with
                  | Some n => if decide (n = 0) then 1000 else n
                  | None => 1000
                  end in
  allowed = true ↔
    rpm_used info + 1 ≤ rpm_limit info ∧
    input_tpm_used info + estimate_request_tokens encode request ≤ input_tpm_limit info ∧
    output_tpm_used info + reserved ≤ output_tpm_limit info.
Proof.
  intros H. cbv zeta.
  destruct (check_rate_limit_sound _ _ _ _ _ _ _ H) as (_ & _ & _ & _ & Hiff).
  replace (match max_tokens request with
           | Some n => if decide (n = 0) then 1000 else n
           | None => 1000
           end) with (output_reservation request); [done|].
  unfold output_reservation, truthy. destruct (max_tokens request) as [n|]; [|done].
  simpl. case_decide as Hn; [by subst|].
  by rewrite (proj2 (Z.eqb_neq n 0) Hn).
Qed.

(** C9.  Every response the handler returns has status 200 (the request
    was let through) or 429 (it was rejected), and in both cases carries the
    headers computed from the snapshot of the admission check. *)
Theorem rate_limit_headers_on_success_and_rejection
    encode isoformat request authorization w resp w' :
  chat_completions encode isoformat request authorization w = (Ok resp, w') →
  ∃ a allowed info w1 hs,
    authorization = Some a ∧
    check_rate_limit encode (replace a "Bearer " "") request w
    = (Ok (allowed, info), w1) ∧
    get_rate_limit_headers isoformat (replace a "Bearer " "") info w1
    = (Ok hs, after_tick w1) ∧
    headers resp = hs ∧
    status_code resp = if allowed then 200 else 429.
Proof.
  intros H.
  destruct (chat_completions_cases encode isoformat request authorization w)
    as [(msg & Hm)|(a & lims & -> & Hs & Hk & Heq)]; [congruence|].
  rewrite Heq in H.
  destruct (chat_completions_with_key_cases encode isoformat request _ w lims Hk)
    as [(w0 & _ & Hr)|[(info & w1 & hs & Hc & Hh & Hr)
                      |(info & w1 & hs & r & w3 & Hc & Hh & _ &
                        [(w0 & _ & Hr)|(w0 & _ & Hr)])]];
    rewrite Hr in H; inversion H; subst.
  - by exists a, false, info, w1, hs.
  - by exists a, true, info, w1, hs.
Qed.

(** C6.  [check_rate_limit] only reads: it leaves the store and the pending
    tasks as they were and sends nothing but [HMGET]s; and when it returns
    [allowed = false] the handler answers 429 having sent nothing more, so a
    rejected request changes no counter. *)
Theorem check_reads_only_and_rejection_records_nothing encode isoformat :
  (∀ api_key request w res w',
      check_rate_limit encode api_key request w = (res, w') → reads w w') ∧
  (∀ request a w info w1 lims,
      startswith a "Bearer " = true →
      Config.API_KEY_LIMITS !! replace a "Bearer " "" = Some lims →
      check_rate_limit encode (replace a "Bearer " "") request w
      = (Ok (false, info), w1) →
      ∃ resp w',
        chat_completions encode isoformat request (Some a) w = (Ok resp, w') ∧
        status_code resp = 429 ∧
        redis w' = redis w ∧ tasks w' = tasks w ∧ log w' = log w1 ∧ reads w w').
Proof.
  split; [intros; by eapply check_rate_limit_reads|].
  intros request a w info w1 lims Hs Hk Hc.
  unfold chat_completions. rewrite Hs. cbv zeta.
  destruct (chat_completions_with_key_cases encode isoformat request _ w lims Hk)
    as [(w0 & Hc' & _)|[(info' & w1' & hs & Hc' & Hh & Hr)
                       |(info' & w1' & hs & r & w3 & Hc' & _)]];
    rewrite Hc in Hc'; inversion Hc'; subst.
  rewrite Hr. eexists _, _. split; [reflexivity|]. simpl.
  apply check_rate_limit_reads in Hc.
  assert (reads w (after_tick w1')) as Hrd
    by (eapply reads_trans; [done|apply reads_tick]).
  destruct Hrd as (Hr1 & Hr2 & Hr3 & Hr4).
  rewrite after_tick_log. repeat split; try done.
Qed.

(** C5, amended.  When a store read fails during a request, the handler
    raises the store's exception without building a response: the failed
    read is the last command sent (it is not retried and nothing follows
    it), every command before it is a read of another key that ran, and the
    store and the pending tasks are as they were, so nothing was recorded. *)
Theorem failed_read_propagates_without_retry
    encode isoformat request authorization w res w' l c :
  chat_completions encode isoformat request authorization w = (res, w') →
  log w' = log w ++ l →
  (c, false) ∈ l →
  is_read c = true →
  res = Raise RedisError ∧
  redis w' = redis w ∧ tasks w' = tasks w ∧
  ∃ l0, l = l0 ++ [(c, false)] ∧
        Forall (λ e, is_read e.1 = true ∧ e.2 = true ∧ cmd_key e.1 ≠ cmd_key c) l0.
Proof.
  intros H Hl Hin Hc.
  destruct (chat_completions_cases encode isoformat request authorization w)
    as [(msg & Hm)|(a & lims & -> & Hs & Hk & Heq)].
  { rewrite Hm in H. inversion H; subst.
    rewrite <- (app_nil_r (log w')) in Hl at 1. apply app_inv_head in Hl. subst.
    by apply elem_of_nil in Hin. }
  rewrite Heq in H.
  destruct (chat_completions_with_key_cases encode isoformat request _ w lims Hk)
    as [(w0 & Hck & Hr)|[(info & w1 & hs & Hck & Hh & Hr)
                        |(info & w1 & hs & r & w3 & Hck & Hh & Hmock &
                          [(w0 & Hrec & Hr)|(w0 & Hrec & Hr)])]];
    rewrite Hr in H; inversion H; subst.
  - pose proof (check_rate_limit_reads _ _ _ _ _ _ Hck) as (Hr1 & Hr2 & _).
    apply check_rate_limit_log_Raise in Hck as (l0 & c0 & Hl0 & Hc0 & Hf).
    rewrite Hl0 in Hl. apply app_inv_head in Hl. subst l.
    apply elem_of_app in Hin as [Hin|Hin].
    + rewrite Forall_forall in Hf. by destruct (Hf _ Hin) as (_ & ? & _).
    + apply list_elem_of_singleton in Hin. inversion Hin; subst.
      repeat split; [done..|]. by exists l0.
  - apply check_rate_limit_log_Ok in Hck as (lc & Hlc & Hf).
    rewrite after_tick_log, Hlc in Hl. apply app_inv_head in Hl. subst l.
    rewrite Forall_forall in Hf. by destruct (Hf _ Hin) as (_ & ?).
  - apply check_rate_limit_log_Ok in Hck as (lc & Hlc & Hf).
    destruct (generate_mock_response_spec encode request (after_tick w1))
      as (r' & w3' & Hmock' & _ & Hlm & _).
    rewrite Hmock in Hmock'. inversion Hmock'; subst r' w3'.
    apply record_usage_log in Hrec as (lr & Hlr & Hfr).
    rewrite Hlr, Hlm, after_tick_log, Hlc, <- app_assoc in Hl.
    apply app_inv_head in Hl. subst l.
    rewrite Forall_forall in Hf, Hfr.
    apply elem_of_app in Hin as [Hin|Hin].
    + by destruct (Hf _ Hin) as (_ & ?).
    + specialize (Hfr _ Hin). simpl in Hfr. congruence.
  - apply check_rate_limit_log_Ok in Hck as (lc & Hlc & Hf).
    destruct (generate_mock_response_spec encode request (after_tick w1))
      as (r' & w3' & Hmock' & _ & Hlm & _).
    rewrite Hmock in Hmock'. inversion Hmock'; subst r' w3'.
    apply record_usage_log in Hrec as (lr & Hlr & Hfr).
    rewrite Hlr, Hlm, after_tick_log, Hlc, <- app_assoc in Hl.
    apply app_inv_head in Hl. subst l.
    rewrite Forall_forall in Hf, Hfr.
    apply elem_of_app in Hin as [Hin|Hin].
    + by destruct (Hf _ Hin) as (_ & ?).
    + specialize (Hfr _ Hin). simpl in Hfr. congruence.
Qed.

(** ** Clock readings and segments *)

Lemma quot_usec_bounds t : usec * (Z.quot t usec) - usec < t < usec * (Z.quot t usec) + usec.
Proof.
  pose proof (Z.quot_rem' t usec) as H.
  pose proof (Z.rem_bound_abs t usec) as Hb. unfold usec in *. lia.
Qed.

Lemma seg_of_bounds t :
  segment_size * seg_of t ≤ Z.quot t usec < segment_size * seg_of t + segment_size.
Proof.
  unfold seg_of. pose proof segment_size_pos.
  pose proof (Z.div_mod (Z.quot t usec) segment_size).
  pose proof (Z.mod_pos_bound (Z.quot t usec) segment_size). lia.
Qed.

(** Two instants of one segment are less than six seconds apart. *)
Lemma same_segment_close t t' : seg_of t = seg_of t' → t' - t < 6 * usec.
Proof.
  intros H. pose proof (seg_of_bounds t) as B. pose proof (seg_of_bounds t') as B'.
  rewrite H in B. pose proof (quot_usec_bounds t). pose proof (quot_usec_bounds t').
  change segment_size with 5 in *. unfold usec in *. lia.
Qed.

Lemma hash_at_of_kv r key h d t :
  kv r key = (Some h, Some d) → t < d → hash_at t r key = h.
Proof.
  unfold kv, hash_at, expired. intros [= -> ->] Ht.
  by rewrite bool_decide_eq_false_2 by lia.
Qed.

(** ** Recording, then reading *)

Lemma window_sum_after_record m r api_key a b t_rec s t_read t_cmd :
  t_cmd < t_rec + window_size * 2 * usec →
  seg_of t_read = s →
  window_sum_at (recorded t_rec s api_key a b r) t_read t_cmd (metric_key m api_key)
  = win (cnt (hash_at t_rec r (metric_key m api_key))) s + amount m a b.
Proof.
  intros Ht Hs. rewrite window_sum_at_win, Hs.
  rewrite (hash_at_of_kv _ _ _ _ _ (recorded_kv m t_rec s api_key a b r) Ht).
  unfold win.
  rewrite (zsum_bump (cnt (hash_at t_rec r (metric_key m api_key))) _ s (amount m a b)).
  - rewrite bool_decide_eq_true_2; [done|]. pose proof segments_pos. lia.
  - rewrite cnt_insert. by rewrite decide_True.
  - intros i Hi. rewrite cnt_insert. by rewrite decide_False.
Qed.

(** C4.  After [record_usage(api_key, a, b)], a [_get_window_sum] that falls
    in the same segment returns, on each of the three counter keys, what the
    store held for that window when the record reached it, plus 1 for
    requests, [a] for input tokens and [b] for output tokens.  Reads in
    between do not matter; no other write happens in between. *)
Theorem record_then_window_sum api_key a b w w1 m w1' s w2 :
  record_usage api_key a b w = (Ok tt, w1) →
  reads w1 w1' →
  _get_window_sum (metric_key m api_key) w1' = (Ok s, w2) →
  seg_of (clock w) = seg_of (clock w2) →
  s = used (redis w) (clock w1) (metric_key m api_key) + amount m a b.
Proof.
  intros Hrec (Hr & _ & Hc & _) Hsum Hseg.
  rewrite record_usage_eq in Hrec. cbv zeta in Hrec.
  destruct (next_fails _); [discriminate|]. injection Hrec as Hw1.
  apply get_window_sum_Ok in Hsum as (t_read & t_cmd & H1 & H2 & H3 & ->).
  set (t0 := clock (after_tick w)) in *.
  set (t_rec := clock (after_tick (after_tick w))) in *.
  assert (clock w ≤ t0) by apply after_tick_clock.
  assert (t0 ≤ t_rec) by apply after_tick_clock.
  assert (clock w1 = t_rec) as Hc1 by (by rewrite <- Hw1).
  assert (redis w1 = recorded t_rec (seg_of t0) api_key a b (redis w)) as Hr1.
  { rewrite <- Hw1. simpl. by rewrite !after_tick_redis. }
  assert (∀ t, clock w ≤ t → t ≤ clock w2 → seg_of t = seg_of (clock w)) as Hsame.
  { intros t Ha Hb. apply Z.le_antisymm.
    - rewrite Hseg. by apply seg_of_mono.
    - by apply seg_of_mono. }
  rewrite Hr, Hr1, Hc1.
  rewrite (window_sum_after_record m _ _ _ _ t_rec (seg_of t0) t_read t_cmd).
  - unfold used. rewrite window_sum_at_win.
    rewrite (Hsame t_rec) by lia. by rewrite (Hsame t0) by lia.
  - assert (seg_of t_rec = seg_of t_cmd) as Hclose.
    { rewrite (Hsame t_rec), (Hsame t_cmd) by lia. done. }
    apply same_segment_close in Hclose.
    change window_size with 60. unfold usec in *. lia.
  - rewrite (Hsame t_read), (Hsame t0) by lia. done.
Qed.

(** ** [Retry-After] *)



(** ** Invariants of sequential executions *)

Lemma limits_nonneg m api_key : 0 ≤ metric_limit m (Config.get_api_key_limits api_key).
Proof.
  unfold Config.get_api_key_limits, Config.API_KEY_LIMITS.
  rewrite !lookup_insert, lookup_empty.
  repeat case_decide; destruct m; simpl; lia.
Qed.

Lemma cnt_hash_at t r key i :
  cnt (hash_at t r key) i = cnt (raw r key) i ∨ cnt (hash_at t r key) i = 0.
Proof.
  destruct (hash_at_cases t r key) as [[_ ->]|[_ ->]]; [right; apply cnt_empty|by left].
Qed.

Lemma cnt_hash_at_le t r key i :
  0 ≤ cnt (raw r key) i → 0 ≤ cnt (hash_at t r key) i ≤ cnt (raw r key) i.
Proof. intros H. destruct (cnt_hash_at t r key i) as [-> | ->]; lia. Qed.

(** A key seen later holds no more than seen earlier. *)
Lemma cnt_hash_at_mono t t' r key i :
  t ≤ t' → 0 ≤ cnt (raw r key) i →
  0 ≤ cnt (hash_at t' r key) i ≤ cnt (hash_at t r key) i.
Proof.
  intros Ht H.
  destruct (hash_at_cases t r key) as [[E ->]|[E ->]].
  - apply (expired_mono t t') in E; [|done]. unfold hash_at. rewrite E.
    rewrite cnt_empty. lia.
  - by apply cnt_hash_at_le.
Qed.

Lemma well_formed_empty t : well_formed empty_redis t.
Proof. intros key i. unfold raw. simpl. rewrite lookup_empty. simpl. by rewrite cnt_empty. Qed.

Lemma bounded_empty m t : bounded m empty_redis t.
Proof.
  intros api_key e _.
  assert (raw empty_redis (metric_key m api_key) = ∅) as ->
    by (unfold raw; simpl; by rewrite lookup_empty).
  unfold win. rewrite zsum_zero; [apply limits_nonneg|]. intros. apply cnt_empty.
Qed.

Lemma shrunk_refl r : shrunk r r.
Proof. intros key i. by left. Qed.

Lemma well_formed_shrunk r r' t t' :
  well_formed r t → shrunk r r' → t ≤ t' → well_formed r' t'.
Proof.
  intros Hwf Hs Ht key i. destruct (Hwf key i) as [H0 H1].
  apply seg_of_mono in Ht.
  destruct (Hs key i) as [-> | ->]; (split; [lia|]); [|done].
  intros. apply H1. lia.
Qed.

Lemma bounded_shrunk m r r' t t' :
  well_formed r t → bounded m r t → shrunk r r' → t ≤ t' → bounded m r' t'.
Proof.
  intros Hwf Hb Hs Ht api_key e He. apply seg_of_mono in Ht.
  etrans; [|apply (Hb api_key e); lia].
  apply zsum_le. intros i _. destruct (Hwf (metric_key m api_key) i) as [H0 _].
  destruct (Hs (metric_key m api_key) i) as [-> | ->]; lia.
Qed.

Lemma used_le_win r t key :
  (∀ i, 0 ≤ cnt (raw r key) i) → used r t key ≤ win (cnt (raw r key)) (seg_of t).
Proof.
  intros H. unfold used. rewrite window_sum_at_win. apply zsum_le.
  intros i _. by apply cnt_hash_at_le.
Qed.

(** *** Clean-up tasks *)

Lemma lookup_foldr_delete (h : gmap string Z) fs f :
  foldr delete h fs !! f = h !! f ∨ foldr delete h fs !! f = None.
Proof.
  induction fs as [|x fs IH]; simpl; [by left|].
  destruct (decide (x = f)) as [->|Hne].
  - right. apply lookup_delete_eq.
  - by rewrite lookup_delete_ne.
Qed.

Lemma hdel_shrunk t key fs r : shrunk r (hdel t key fs r).
Proof.
  intros key' i. destruct (decide (key = key')) as [<-|Hne]; cycle 1.
  { left. f_equal. apply raw_kv.
    by apply (apply_cmd_other t r (HDEL key fs) key'). }
  assert (cnt (raw (hdel t key fs r) key) i
          = cnt (foldr delete (hash_at t r key) fs) i) as ->.
  { unfold hdel. cbv zeta. case_decide as He; unfold raw; simpl.
    - by rewrite lookup_delete_eq, He.
    - by rewrite lookup_insert_eq. }
  unfold cnt at 1 3.
  destruct (lookup_foldr_delete (hash_at t r key) fs (str i)) as [-> | ->];
    [|by right].
  apply cnt_hash_at.
Qed.

Lemma clean_old_segments_shrunk key w res w' :
  _clean_old_segments key w = (res, w') →
  shrunk (redis w) (redis w') ∧ clock w ≤ clock w'.
Proof.
  unfold _clean_old_segments. rewrite (bind_Ok _ _ _ _ _ (get_window_segments_eq w)).
  cbv beta iota. unfold redis_hkeys, redis_hdel.
  pose proof (after_tick_redis w) as Hr1.
  pose proof (after_tick_redis (after_tick w)) as Hr2.
  pose proof (after_tick_clock w) as Hc1.
  pose proof (after_tick_clock (after_tick w)) as Hc2.
  destruct (next_fails (after_tick (after_tick w))) eqn:Hf.
  { erewrite bind_Raise; cycle 1.
    { erewrite bind_Raise; [reflexivity|]. by rewrite round_trip_eq, send_eq, Hf. }
    intros [= _ <-]. simpl. rewrite Hr2, Hr1. split; [apply shrunk_refl|lia]. }
  erewrite bind_Ok; cycle 1.
  { erewrite bind_Ok; [|by rewrite round_trip_eq, send_eq, Hf]. reflexivity. }
  set (w3 := sent_ok [HKEYS key] (after_tick (after_tick w))).
  assert (redis w3 = redis w) as Hr3 by (simpl; congruence).
  assert (clock w ≤ clock w3) as Hc3 by (simpl; lia).
  destruct (hkeys (clock w3) key (redis w3)) as [|f0 fs0].
  { intros [= _ <-]. rewrite Hr3. split; [apply shrunk_refl|done]. }
  destruct (List.filter _ _) as [|f1 fs1].
  { intros [= _ <-]. rewrite Hr3. split; [apply shrunk_refl|done]. }
  rewrite round_trip_eq, send_eq.
  pose proof (after_tick_clock w3) as Hc4.
  destruct (next_fails (after_tick w3)); intros [= _ <-]; simpl.
  - rewrite after_tick_redis, Hr3. split; [apply shrunk_refl|lia].
  - rewrite after_tick_redis, Hr3. split; [apply hdel_shrunk|lia].
Qed.

(** *** let through requests *)

Lemma metric_key_cases key api_key :
  (∃ m, key = metric_key m api_key) ∨ (∀ m, key ≠ metric_key m api_key).
Proof.
  destruct (decide (key = metric_key Rpm api_key)); [left; by exists Rpm|].
  destruct (decide (key = metric_key InputTpm api_key)); [left; by exists InputTpm|].
  destruct (decide (key = metric_key OutputTpm api_key)); [left; by exists OutputTpm|].
  right. by intros [].
Qed.

Lemma recorded_cnt m t s api_key a b r i :
  cnt (raw (recorded t s api_key a b r) (metric_key m api_key)) i
  = cnt (hash_at t r (metric_key m api_key)) i
    + if decide (i = s) then amount m a b else 0.
Proof.
  pose proof (recorded_kv m t s api_key a b r) as H. cbv zeta in H.
  unfold kv in H. injection H as Hh _. unfold raw. rewrite Hh. simpl.
  rewrite cnt_insert. case_decide; [by subst|lia].
Qed.

Lemma recorded_raw_other t s api_key a b r key :
  (∀ m, key ≠ metric_key m api_key) → raw (recorded t s api_key a b r) key = raw r key.
Proof. intros H. apply raw_kv. by apply recorded_other. Qed.

Section Served.
Variable encode : string → list Z.

Lemma amount_nonneg m request b :
  0 ≤ b → 0 ≤ amount m (estimate_request_tokens encode request) b.
Proof.
  intros Hb. destruct m; simpl; [lia| |done]. apply estimate_request_tokens_nonneg.
Qed.

Lemma served_clock api_key request b w w' :
  served encode api_key request b w w' → clock w ≤ clock w'.
Proof.
  intros (t_r & Hadm & Ht & _). destruct (Hadm Rpm) as (t1 & t2 & ? & ? & ? & _). lia.
Qed.

Lemma served_well_formed api_key request b w w' :
  well_formed (redis w) (clock w) →
  served encode api_key request b w w' →
  well_formed (redis w') (clock w').
Proof.
  intros Hwf Hs. pose proof (served_clock _ _ _ _ _ Hs) as Hck.
  destruct Hs as (t_r & Hadm & Ht & (base & _ & Hb) & Hr).
  assert (0 ≤ b) as Hb0 by (subst b; apply count_tokens_nonneg).
  destruct (Hadm Rpm) as (t1 & t2 & Ha1 & Ha2 & Ha3 & _).
  assert (seg_of (clock w) ≤ seg_of t_r) as Hs1 by (apply seg_of_mono; lia).
  assert (seg_of t_r ≤ seg_of (clock w')) as Hs2 by (by apply seg_of_mono).
  intros key i. rewrite Hr.
  destruct (metric_key_cases key api_key) as [[m ->]|Hne].
  - rewrite recorded_cnt.
    destruct (Hwf (metric_key m api_key) i) as [H0 H1].
    pose proof (cnt_hash_at_le (clock w') (redis w) (metric_key m api_key) i H0).
    pose proof (amount_nonneg m request b Hb0).
    split; [case_decide; lia|].
    intros Hi. rewrite decide_False by lia.
    destruct (cnt_hash_at (clock w') (redis w) (metric_key m api_key) i) as [-> | ->];
      [|done]. rewrite H1; lia.
  - rewrite (recorded_raw_other _ _ _ _ _ _ _ Hne).
    destruct (Hwf key i) as [H0 H1]. split; [done|]. intros. apply H1. lia.
Qed.

Lemma served_bounded m api_key request b w w' :
  well_formed (redis w) (clock w) →
  bounded m (redis w) (clock w) →
  served encode api_key request b w w' →
  amount m (estimate_request_tokens encode request) b ≤ need encode m request →
  bounded m (redis w') (clock w').
Proof.
  intros Hwf Hbd Hs Hfit. pose proof (served_clock _ _ _ _ _ Hs) as Hck.
  destruct Hs as (t_r & Hadm & Ht & _ & Hr).
  destruct (Hadm m) as (t1 & t2 & Ha1 & Ha2 & Ha3 & Hlim).
  pose proof (seg_of_mono _ _ Hck) as Hs0.
  intros k e He. rewrite Hr.
  destruct (decide (k = api_key)) as [->|Hk]; cycle 1.
  { rewrite recorded_raw_other; [apply Hbd; lia|].
    intros m' H. by apply metric_key_inj in H as [_ ?]. }
  set (key := metric_key m api_key) in *.
  set (F := cnt (raw (redis w) key)).
  set (B := cnt (hash_at (clock w') (redis w) key)).
  set (Bc := cnt (hash_at t2 (redis w) key)).
  set (v := amount m (estimate_request_tokens encode request) b) in *.
  assert (∀ i, 0 ≤ F i) as HF0 by (intros i; apply Hwf).
  assert (∀ i, 0 ≤ B i ≤ F i) as HB by (intros i; by apply cnt_hash_at_le).
  assert (∀ i, 0 ≤ B i ≤ Bc i) as HBc
    by (intros i; apply cnt_hash_at_mono; [lia|apply HF0]).
  unfold win.
  rewrite (zsum_bump B _ (seg_of t_r) v); cycle 1.
  { unfold key. rewrite recorded_cnt. by rewrite decide_True. }
  { intros i Hi. unfold key. rewrite recorded_cnt. rewrite decide_False by done.
    fold key. fold B. lia. }
  case_bool_decide as Hin.
  - rewrite window_sum_at_win in Hlim. fold key in Hlim. fold Bc in Hlim.
    assert (win B e ≤ win B (seg_of t1)) as H1.
    { apply win_later.
      - intros i. apply HB.
      - intros i Hi. destruct (Hwf key i) as [_ Hz].
        assert (F i = 0) as HFi.
        { apply Hz. assert (seg_of (clock w) ≤ seg_of t1) by (by apply seg_of_mono). lia. }
        specialize (HB i). lia.
      - assert (seg_of t1 ≤ seg_of t_r) by (apply seg_of_mono; lia). lia. }
    assert (win B (seg_of t1) ≤ win Bc (seg_of t1)) as H2.
    { apply zsum_le. intros i _. apply HBc. }
    unfold win in H1, H2, Hlim. lia.
  - etrans; [|apply (Hbd api_key e); lia].
    fold key. fold F. unfold win.
    assert (zsum B (e - segments + 1) (Z.to_nat segments)
            ≤ zsum F (e - segments + 1) (Z.to_nat segments)) as H1.
    { apply zsum_le. intros i _. apply HB. }
    lia.
Qed.

End Served.

(** *** One event *)

Section Step.
Variable encode : string → list Z.
Variable isoformat : Z → string.

(** A successful check passed the admission test on sums read from the
    store it started with, between its start and its end. *)
Lemma check_rate_limit_passed api_key request w info w1 :
  check_rate_limit encode api_key request w = (Ok (true, info), w1) →
  redis w1 = redis w ∧ clock w ≤ clock w1 ∧
  ∀ m, ∃ t_read t_cmd,
    clock w ≤ t_read ∧ t_read ≤ t_cmd ∧ t_cmd ≤ clock w1 ∧
    window_sum_at (redis w) t_read t_cmd (metric_key m api_key)
      + need encode m request
    ≤ metric_limit m (Config.get_api_key_limits api_key).
Proof.
  intros H. pose proof (check_rate_limit_reads _ _ _ _ _ _ H) as (Hr & _ & Hc & _).
  split; [done|]. split; [done|].
  apply check_rate_limit_inv in H
    as [(u1 & w2 & u2 & w3 & u3 & w4 & H1 & H2 & H3 & -> & [= Hadm _])|([=] & _)].
  symmetry in Hadm. apply bool_decide_eq_true in Hadm as (A1 & A2 & A3).
  pose proof (get_window_sum_reads _ _ _ _ H1) as (R1 & _ & C1 & _).
  pose proof (get_window_sum_reads _ _ _ _ H2) as (R2 & _ & C2 & _).
  pose proof (get_window_sum_reads _ _ _ _ H3) as (R3 & _ & C3 & _).
  pose proof (after_tick_clock w4) as C4.
  apply get_window_sum_Ok in H1 as (a1 & b1 & ? & ? & ? & ->).
  apply get_window_sum_Ok in H2 as (a2 & b2 & ? & ? & ? & ->).
  apply get_window_sum_Ok in H3 as (a3 & b3 & ? & ? & ? & ->).
  rewrite R2, R1 in A3. rewrite R1 in A2.
  intros [].
  - exists a1, b1. repeat split; [lia..|done].
  - exists a2, b2. repeat split; [lia..|done].
  - exists a3, b3. repeat split; [lia..|done].
Qed.

(** Handling a request either leaves the store as it is, or serves the
    request. *)
Lemma chat_completions_step request authorization w res w' :
  chat_completions encode isoformat request authorization w = (res, w') →
  (redis w' = redis w ∧ clock w ≤ clock w') ∨
  (∃ api_key b, served encode api_key request b w w').
Proof.
  intros H.
  destruct (chat_completions_cases encode isoformat request authorization w)
    as [(msg & Hm)|(a & lims & -> & Hs & Hk & Heq)].
  { rewrite Hm in H. inversion H; subst. left. split; [done|lia]. }
  rewrite Heq in H. set (k := replace a "Bearer " "") in *.
  destruct (chat_completions_with_key_cases encode isoformat request k w lims Hk)
    as [(w0 & Hck & Hr)|[(info & w1 & hs & Hck & Hh & Hr)
                        |(info & w1 & hs & r & w3 & Hck & Hh & Hmock &
                          [(w0 & Hrec & Hr)|(w0 & Hrec & Hr)])]];
    rewrite Hr in H; inversion H; subst.
  - left. by apply check_rate_limit_reads in Hck as (? & _ & ? & _).
  - left. apply check_rate_limit_reads in Hck as (? & _ & ? & _).
    rewrite after_tick_redis. pose proof (after_tick_clock w1). split; [done|lia].
  - left. apply check_rate_limit_reads in Hck as (? & _ & ? & _).
    destruct (generate_mock_response_spec encode request (after_tick w1))
      as (r' & w3' & Hmock' & (Rm & _ & Cm & _) & _).
    rewrite Hmock in Hmock'. inversion Hmock'; subst r' w3'.
    apply record_usage_Raise in Hrec as (Rr & _ & Cr).
    rewrite after_tick_redis in Rm. pose proof (after_tick_clock w1).
    split; [congruence|lia].
  - right.
    destruct (generate_mock_response_spec encode request (after_tick w1))
      as (r' & w3' & Hmock' & (Rm & _ & Cm & _) & _ & Hp & base & Hbase & Hcomp).
    rewrite Hmock in Hmock'. inversion Hmock'; subst r' w3'.
    exists k, (completion_tokens (usage r)).
    apply check_rate_limit_passed in Hck as (Rc & Cc & Hadm).
    rewrite record_usage_eq in Hrec. cbv zeta in Hrec.
    destruct (next_fails _); [discriminate|]. injection Hrec as <-.
    pose proof (after_tick_clock w1). pose proof (after_tick_clock w3).
    pose proof (after_tick_clock (after_tick w3)).
    rewrite after_tick_redis in Rm.
    exists (clock (after_tick w3)). split; [|split; [|split]].
    + intros m. destruct (Hadm m) as (t1 & t2 & ? & ? & ? & ?).
      exists t1, t2. repeat split; [lia..|done].
    + simpl. lia.
    + by exists base.
    + simpl. rewrite !after_tick_redis, Rm, Rc, Hp. reflexivity.
Qed.

(** Whatever happens next, counters stay non-negative and none appears
    for a future segment. *)
Lemma step_well_formed ev w :
  well_formed (redis w) (clock w) →
  well_formed (redis (step encode isoformat w ev)) (clock (step encode isoformat w ev)).
Proof.
  intros Hwf. destruct ev as [request authorization|i|]; simpl.
  - destruct (chat_completions encode isoformat request authorization w)
      as [res w'] eqn:H. simpl.
    apply chat_completions_step in H as [[Hr Hc]|(k & b & Hs)].
    + eapply well_formed_shrunk; [done| |done]. rewrite Hr. apply shrunk_refl.
    + by eapply served_well_formed.
  - unfold run_task. destruct (tasks w !! i) as [key|]; [|done].
    destruct (_clean_old_segments key _) as [res w'] eqn:H. simpl.
    apply clean_old_segments_shrunk in H as [Hs Hc]. simpl in Hs, Hc.
    by eapply well_formed_shrunk.
  - fold (after_tick w). rewrite after_tick_redis.
    eapply well_formed_shrunk; [done|apply shrunk_refl|apply after_tick_clock].
Qed.

Lemma step_bounded m ev w :
  event_ok encode m ev →
  well_formed (redis w) (clock w) →
  bounded m (redis w) (clock w) →
  bounded m (redis (step encode isoformat w ev)) (clock (step encode isoformat w ev)).
Proof.
  intros Hok Hwf Hbd. destruct ev as [request authorization|i|]; simpl.
  - destruct (chat_completions encode isoformat request authorization w)
      as [res w'] eqn:H. simpl.
    apply chat_completions_step in H as [[Hr Hc]|(k & b & Hs)].
    + eapply bounded_shrunk; [done|done| |done]. rewrite Hr. apply shrunk_refl.
    + eapply served_bounded; [done|done|done|].
      destruct m; simpl; [lia|lia|].
      destruct Hs as (_ & _ & _ & (base & Hbase & ->) & _).
      simpl in Hok. unfold fits in Hok. rewrite Forall_forall in Hok.
      by apply Hok.
  - unfold run_task. destruct (tasks w !! i) as [key|]; [|done].
    destruct (_clean_old_segments key _) as [res w'] eqn:H. simpl.
    apply clean_old_segments_shrunk in H as [Hs Hc]. simpl in Hs, Hc.
    by eapply bounded_shrunk.
  - fold (after_tick w). rewrite after_tick_redis.
    eapply bounded_shrunk; [done|done|apply shrunk_refl|apply after_tick_clock].
Qed.

Lemma run_invariant m evs w :
  Forall (event_ok encode m) evs →
  well_formed (redis w) (clock w) →
  bounded m (redis w) (clock w) →
  well_formed (redis (run encode isoformat evs w)) (clock (run encode isoformat evs w)) ∧
  bounded m (redis (run encode isoformat evs w)) (clock (run encode isoformat evs w)).
Proof.
  revert w. induction evs as [|ev evs IH]; intros w Hok Hwf Hbd; [done|].
  apply Forall_cons in Hok as [Hev Hok]. simpl. apply IH; [done| |].
  - by apply step_well_formed.
  - by apply step_bounded.
Qed.

Lemma run_used_bounded m evs w api_key :
  Forall (event_ok encode m) evs →
  redis w = empty_redis →
  used (redis (run encode isoformat evs w)) (clock (run encode isoformat evs w))
       (metric_key m api_key)
  ≤ metric_limit m (Config.get_api_key_limits api_key).
Proof.
  intros Hok Hr.
  destruct (run_invariant m evs w Hok) as [Hwf Hbd].
  { rewrite Hr. apply well_formed_empty. }
  { rewrite Hr. apply bounded_empty. }
  etrans; [apply used_le_win; intros i; apply Hwf|].
  by apply Hbd.
Qed.

End Step.

(** C2, amended.  In any sequential execution that starts from an empty
    store (requests handled one after the other, clean-up tasks and idle
    time in between), at every point and for every API key the recorded
    requests and input tokens of the current window are within their limits;
    the recorded output tokens are within their limit provided the
    completion of every request fits the output reservation made for it. *)
Theorem sequential_usage_within_limits encode isoformat evs w api_key :
  redis w = empty_redis →
  let w' := run encode isoformat evs w in
  used (redis w') (clock w') (metric_key Rpm api_key)
    ≤ rpm (Config.get_api_key_limits api_key) ∧
  used (redis w') (clock w') (metric_key InputTpm api_key)
    ≤ input_tpm (Config.get_api_key_limits api_key) ∧
  (Forall (event_fits encode) evs →
   used (redis w') (clock w') (metric_key OutputTpm api_key)
     ≤ output_tpm (Config.get_api_key_limits api_key)).
Proof.
  intros Hr. cbv zeta. split; [|split].
  - apply (run_used_bounded encode isoformat Rpm); [|done].
    apply Forall_forall. by intros.
  - apply (run_used_bounded encode isoformat InputTpm); [|done].
    apply Forall_forall. by intros.
  - intros Hfit. by apply (run_used_bounded encode isoformat OutputTpm).
Qed.

(** ** Extracting the API key *)



Section Replace.
(** The pattern is not empty. *)
Variable c0 : ascii.
Variable pat' : string.









End Replace.



(** * Further properties of the code *)

(** ** Clean-up of old segments *)

Lemma clean_old_segments_eq key w :
  _clean_old_segments key w =
  let w1 := after_tick w in
  let w2 := after_tick w1 in
  if next_fails w2 then (Raise RedisError, sent_failed [HKEYS key] w2)
  else
    let w3 := sent_ok [HKEYS key] w2 in
    let all_fields := hkeys (clock w2) key (redis w) in
    match all_fields with
    | [] => (Ok tt, w3)
    | _ =>
        match old_fields (window_start_segment (clock w1)) all_fields with
        | [] => (Ok tt, w3)
        | f :: fs =>
            let w4 := after_tick w3 in
            if next_fails w4
            then (Raise RedisError, sent_failed [HDEL key (f :: fs)] w4)
            else (Ok tt, sent_ok [HDEL key (f :: fs)] w4)
        end
    end.
Proof.
  unfold _clean_old_segments. rewrite (bind_Ok _ _ _ _ _ (get_window_segments_eq w)).
  cbv beta iota zeta. unfold redis_hkeys, redis_hdel.
  destruct (next_fails (after_tick (after_tick w))) eqn:Hf.
  { erewrite bind_Raise; [reflexivity|].
    erewrite bind_Raise; [reflexivity|]. by rewrite round_trip_eq, send_eq, Hf. }
  erewrite bind_Ok; cycle 1.
  { erewrite bind_Ok; [|by rewrite round_trip_eq, send_eq, Hf]. reflexivity. }
  cbn [redis clock sent_ok foldl apply_cmd]. rewrite !after_tick_redis.
  destruct (hkeys _ key (redis w)) as [|f0 fs0] eqn:Hk; [reflexivity|].
  fold (old_fields (seg_of (clock (after_tick w)) - segments + 1) (f0 :: fs0)).
  fold (window_start_segment (clock (after_tick w))).
  destruct (old_fields _ (f0 :: fs0)) as [|f1 fs1]; [reflexivity|].
  by rewrite round_trip_eq, send_eq.
Qed.

Lemma old_fields_spec start all f :
  f ∈ old_fields start all ↔ f ∈ all ∧ ∃ z, int f = Some z ∧ z < start.
Proof.
  unfold old_fields. rewrite !list_elem_of_In, filter_In.
  split; intros [Hin H]; (split; [done|]).
  - destruct (int f) as [z|]; [|done]. exists z. split; [done|].
    by apply bool_decide_eq_true in H.
  - destruct H as (z & -> & Hz). by apply bool_decide_eq_true.
Qed.

Lemma hkeys_spec t key r f : f ∈ hkeys t key r ↔ is_Some (hash_at t r key !! f).
Proof.
  unfold hkeys. rewrite list_elem_of_fmap. split.
  - intros ([f' v] & -> & H). apply elem_of_map_to_list in H. by exists v.
  - intros [v H]. exists (f, v). split; [done|]. by apply elem_of_map_to_list.
Qed.

Lemma lookup_foldr_delete_Some (h : gmap string Z) fs f v :
  foldr delete h fs !! f = Some v ↔ h !! f = Some v ∧ f ∉ fs.
Proof.
  induction fs as [|x fs IH]; simpl.
  - split; [intros H; split; [done|apply not_elem_of_nil]|by intros [? _]].
  - rewrite lookup_delete_Some, IH, not_elem_of_cons. naive_solver.
Qed.

(** After the [HDEL] of a clean-up, what the key holds. *)
Lemma hash_at_hdel t t' key fs r f v :
  t ≤ t' →
  hash_at t' (hdel t key fs r) key !! f = Some v →
  hash_at t r key !! f = Some v ∧ f ∉ fs ∧ expired t' r key = false.
Proof.
  intros Ht. unfold hdel. cbv zeta. case_decide as He.
  - unfold hash_at, expired. simpl. rewrite !lookup_delete_eq. simpl.
    by rewrite lookup_empty.
  - unfold hash_at at 1. unfold expired at 1. simpl. rewrite lookup_insert_eq. simpl.
    fold (expired t' r key). destruct (expired t' r key) eqn:E; [by rewrite lookup_empty|].
    intros H. apply lookup_foldr_delete_Some in H as [H1 H2]. done.
Qed.

(** X1.  When a clean-up of a key completes, every field that the key still
    holds and that reads as an integer names a segment of the window the
    clean-up computed: nothing older than [current - segments + 1] is left. *)
Theorem clean_up_leaves_no_old_segment key w w' f v z :
  _clean_old_segments key w = (Ok tt, w') →
  hash_at (clock w') (redis w') key !! f = Some v →
  int f = Some z →
  window_start_segment (clock (after_tick w)) ≤ z.
Proof.
  rewrite clean_old_segments_eq. cbv zeta.
  set (start := window_start_segment (clock (after_tick w))).
  set (w2 := after_tick (after_tick w)).
  assert (redis w2 = redis w) as Hr2 by (unfold w2; by rewrite !after_tick_redis).
  destruct (next_fails w2); [discriminate|].
  assert (∀ g u, hash_at (clock w2) (redis w) key !! g = Some u →
                 old_fields start (hkeys (clock w2) key (redis w)) = [] →
                 ∀ y, int g = Some y → start ≤ y) as Hnone.
  { intros g u Hg Hnil y Hy. destruct (decide (start ≤ y)) as [|Hlt]; [done|].
    assert (g ∈ old_fields start (hkeys (clock w2) key (redis w))) as Hin.
    { apply old_fields_spec. split; [apply hkeys_spec; by exists u|].
      exists y. split; [done|lia]. }
    rewrite Hnil in Hin. by apply elem_of_nil in Hin. }
  destruct (hkeys (clock w2) key (redis w)) as [|f0 fs0] eqn:Hk.
  { intros [= <-]. simpl. rewrite Hr2. intros Hf _.
    assert (f ∈ hkeys (clock w2) key (redis w)) as Hin
      by (apply hkeys_spec; by exists v).
    rewrite Hk in Hin. by apply elem_of_nil in Hin. }
  rewrite <- Hk in *.
  destruct (old_fields start (hkeys (clock w2) key (redis w))) as [|f1 fs1] eqn:Ho.
  { intros [= <-]. simpl. rewrite Hr2. intros Hf Hz. by eapply Hnone. }
  set (w3 := sent_ok [HKEYS key] w2).
  destruct (next_fails (after_tick w3)); [discriminate|].
  intros [= <-]. simpl. rewrite after_tick_redis. simpl. rewrite Hr2.
  intros Hf Hz.
  pose proof (after_tick_clock w3) as Hc. simpl in Hc.
  apply hash_at_hdel in Hf as (Hf & Hnot & Hexp); [|lia].
  destruct (decide (start ≤ z)) as [|Hlt]; [done|]. exfalso. apply Hnot.
  rewrite <- Ho. apply old_fields_spec. split; [|exists z; split; [done|lia]].
  apply hkeys_spec. exists v.
  (* the key was not expired when its fields were listed *)
  destruct (hash_at_cases (clock (after_tick w3)) (redis w) key) as [[E _]|[_ E]];
    [congruence|].
  rewrite E in Hf.
  destruct (hash_at_cases (clock w2) (redis w) key) as [[E2 _]|[_ ->]]; [|done].
  apply (expired_mono _ (clock (after_tick w3))) in E2; [congruence|done].
Qed.

Lemma lookup_foldr_delete_notin (h : gmap string Z) fs f :
  f ∉ fs → foldr delete h fs !! f = h !! f.
Proof.
  intros Hf. destruct (h !! f) as [v|] eqn:Hh.
  - by apply lookup_foldr_delete_Some.
  - destruct (foldr delete h fs !! f) as [v|] eqn:Hd; [|done].
    apply lookup_foldr_delete_Some in Hd as [Hd _]. congruence.
Qed.

(** An [HDEL] of fields that name segments before [start] leaves the
    counters of the segments from [start] on as they were. *)
Lemma cnt_hash_at_hdel start t t' key key' fs r i :
  t ≤ t' →
  (∀ f, f ∈ fs → ∃ z, int f = Some z ∧ z < start) →
  start ≤ i →
  cnt (hash_at t' (hdel t key fs r) key') i = cnt (hash_at t' r key') i.
Proof.
  intros Ht Hfs Hi.
  destruct (decide (key = key')) as [<-|Hne]; cycle 1.
  { f_equal. apply hash_at_kv. by apply (apply_cmd_other t r (HDEL key fs) key'). }
  assert (str i ∉ fs) as Hnot.
  { intros Hin. destruct (Hfs _ Hin) as (z & Hz & Hlt). rewrite int_str in Hz.
    injection Hz as <-. lia. }
  unfold cnt. f_equal.
  destruct (hash_at_cases t' r key) as [[E ->]|[E ->]].
  - (* the key has expired: it reads as empty before and after *)
    rewrite lookup_empty.
    destruct (hash_at t' (hdel t key fs r) key !! str i) as [v|] eqn:Hv; [|done].
    apply hash_at_hdel in Hv as (_ & _ & Hexp); [congruence|done].
  - assert (hash_at t r key = raw r key) as Ht0.
    { destruct (hash_at_cases t r key) as [[E2 _]|[_ ->]]; [|done].
      apply (expired_mono _ t') in E2; [congruence|done]. }
    unfold hdel. cbv zeta. rewrite Ht0. case_decide as He.
    + unfold hash_at, expired. simpl. rewrite !lookup_delete_eq. simpl.
      rewrite lookup_empty. symmetry.
      rewrite <- (lookup_foldr_delete_notin (raw r key) fs (str i) Hnot).
      by rewrite He, lookup_empty.
    + unfold hash_at at 1. unfold expired at 1. simpl. rewrite lookup_insert_eq.
      fold (expired t' r key). rewrite E. simpl.
      by apply lookup_foldr_delete_notin.
Qed.

(** X2.  A clean-up, whether it completes or fails, changes nothing of what
    a window sum read afterwards returns, on any key. *)
Theorem clean_up_keeps_window_sums key w res w' key' t_read t_cmd :
  _clean_old_segments key w = (res, w') →
  clock w' ≤ t_read → t_read ≤ t_cmd →
  window_sum_at (redis w') t_read t_cmd key'
  = window_sum_at (redis w) t_read t_cmd key'.
Proof.
  rewrite clean_old_segments_eq. cbv zeta.
  set (start := window_start_segment (clock (after_tick w))).
  set (w2 := after_tick (after_tick w)).
  assert (redis w2 = redis w) as Hr2 by (unfold w2; by rewrite !after_tick_redis).
  assert (clock (after_tick w) ≤ clock w2) as Hc2 by apply after_tick_clock.
  destruct (next_fails w2).
  { intros [= _ <-] _ _. simpl. by rewrite Hr2. }
  destruct (hkeys (clock w2) key (redis w)) as [|f0 fs0] eqn:Hk.
  { intros [= _ <-] _ _. simpl. by rewrite Hr2. }
  rewrite <- Hk.
  destruct (old_fields start (hkeys (clock w2) key (redis w))) as [|f1 fs1] eqn:Ho.
  { intros [= _ <-] _ _. simpl. by rewrite Hr2. }
  set (w3 := sent_ok [HKEYS key] w2).
  pose proof (after_tick_clock w3) as Hc3. simpl in Hc3.
  destruct (next_fails (after_tick w3)).
  { intros [= _ <-] _ _. simpl. rewrite after_tick_redis. simpl. by rewrite Hr2. }
  intros [= _ <-]. simpl. rewrite after_tick_redis. simpl. rewrite Hr2.
  intros H1 H2. rewrite !window_sum_at_win. apply zsum_ext. intros i Hi.
  apply (cnt_hash_at_hdel start); [lia| |].
  - intros f Hf. rewrite <- Ho in Hf. by apply old_fields_spec in Hf as [_ ?].
  - assert (seg_of (clock (after_tick w)) ≤ seg_of t_read)
      by (apply seg_of_mono; lia).
    unfold start, window_start_segment. lia.
Qed.

(** ** Reading a key that is not there *)

(** X13.  [_get_window_sum] returns 0 for a key the store does not hold,
    and for a key whose deadline has passed. *)
Theorem window_sum_of_absent_key key w s w' :
  hashes (redis w) !! key = None ∨ expired (clock w) (redis w) key = true →
  _get_window_sum key w = (Ok s, w') →
  s = 0.
Proof.
  intros Habs H. apply get_window_sum_Ok in H as (t_read & t_cmd & H1 & H2 & _ & ->).
  rewrite window_sum_at_win.
  assert (hash_at t_cmd (redis w) key = ∅) as ->.
  { destruct Habs as [Hn|He].
    - unfold hash_at. rewrite Hn. by destruct (expired _ _ _).
    - assert (clock w ≤ t_cmd) as Hle by lia.
      unfold hash_at. by rewrite (expired_mono _ _ _ _ Hle He). }
  apply zsum_zero. intros. apply cnt_empty.
Qed.

(** ** The input estimate *)

Lemma sum_with_cons {A} (f : A → Z) x xs : sum_with f (x :: xs) = f x + sum_with f xs.
Proof. unfold sum_with. rewrite fmap_cons. apply sum_cons. Qed.

Lemma sum_with_nonneg {A} (f : A → Z) xs : (∀ x, 0 ≤ f x) → 0 ≤ sum_with f xs.
Proof.
  intros Hf. induction xs as [|x xs IH]; [done|].
  rewrite sum_with_cons. specialize (Hf x). lia.
Qed.

(** X4.  The input estimate is the tokens of the roles and contents of all
    messages, plus 4 per message, plus 2; so it is at least
    [4 * len(messages) + 2], and 2 for a request without messages. *)
Theorem estimate_is_tokens_plus_overhead encode request :
  estimate_request_tokens encode request
  = sum_with (message_tokens encode) (messages request)
    + 4 * Z.of_nat (length (messages request)) + 2 ∧
  4 * Z.of_nat (length (messages request)) + 2
  ≤ estimate_request_tokens encode request.
Proof.
  assert (∀ l a,
            foldl (λ total_tokens message,
                     total_tokens + count_tokens encode (role message)
                       + count_tokens encode (content message) + 4) a l
            = a + sum_with (message_tokens encode) l + 4 * Z.of_nat (length l)) as H.
  { induction l as [|x l IH]; intros a.
    - simpl. unfold sum_with, sum. simpl. lia.
    - cbn [foldl]. rewrite IH, sum_with_cons. unfold message_tokens.
      cbn [length]. lia. }
  unfold estimate_request_tokens. cbv zeta. rewrite H.
  split; [lia|].
  assert (0 ≤ sum_with (message_tokens encode) (messages request)).
  { apply sum_with_nonneg. intros m. unfold message_tokens, count_tokens. lia. }
  lia.
Qed.

(** ** More on the handler *)

Section HandlerExtra.
Variable encode : string → list Z.
Variable isoformat : Z → string.

Lemma generate_mock_response_usage request w resp w' :
  _generate_mock_response encode request w = (Ok resp, w') →
  reads w w' ∧ log w' = log w ∧
  prompt_tokens (usage resp) = estimate_request_tokens encode request ∧
  total_tokens (usage resp)
  = prompt_tokens (usage resp) + completion_tokens (usage resp) ∧
  0 ≤ completion_tokens (usage resp).
Proof.
  intros H.
  destruct (generate_mock_content_spec request (after_tick w))
    as (base & w1 & Hc & _ & Hr & Hl).
  unfold _generate_mock_response in H. rewrite (bind_Ok _ _ _ _ _ (tick_eq w)) in H.
  cbv zeta in H. rewrite (bind_Ok _ _ _ _ _ Hc) in H.
  rewrite (bind_Ok _ _ _ _ _ (int_time_time_eq w1)) in H.
  rewrite ret_eq in H. injection H as <- <-. simpl.
  split; [|split; [|split; [done|split; [done|apply count_tokens_nonneg]]]].
  - eapply reads_trans; [apply reads_tick|].
    eapply reads_trans; [done|apply reads_tick].
  - by rewrite after_tick_log, Hl, after_tick_log.
Qed.

(** How a response with status 200 came about. *)
Lemma chat_completions_200 request authorization w resp w' :
  chat_completions encode isoformat request authorization w = (Ok resp, w') →
  status_code resp = 200 →
  ∃ a info w1 c w3,
    authorization = Some a ∧
    check_rate_limit encode (replace a "Bearer " "") request w = (Ok (true, info), w1) ∧
    _generate_mock_response encode request (after_tick w1) = (Ok c, w3) ∧
    record_usage (replace a "Bearer " "") (prompt_tokens (usage c))
                 (completion_tokens (usage c)) w3 = (Ok tt, w') ∧
    response_content resp = CompletionContent c.
Proof.
  intros H Hs.
  destruct (chat_completions_cases encode isoformat request authorization w)
    as [(msg & Hm)|(a & lims & -> & _ & Hk & Heq)]; [congruence|].
  rewrite Heq in H.
  destruct (chat_completions_with_key_cases encode isoformat request _ w lims Hk)
    as [(w0 & _ & Hr)|[(info & w1 & hs & Hc & Hh & Hr)
                      |(info & w1 & hs & r & w3 & Hc & Hh & Hmock &
                        [(w0 & Hrec & Hr)|(w0 & Hrec & Hr)])]];
    rewrite Hr in H; inversion H; subst; try done.
  by exists a, info, w1, r, w3.
Qed.

(** X5.  A response with status 200 reports the usage that was recorded:
    its prompt tokens are the input estimate, its total is prompt plus
    completion, and the store is the one before the request with exactly
    one record of that usage under the key of the header; the three clean-up
    tasks of the key have been spawned. *)
Theorem success_records_the_reported_usage request authorization w resp w' :
  chat_completions encode isoformat request authorization w = (Ok resp, w') →
  status_code resp = 200 →
  ∃ a c t,
    authorization = Some a ∧
    response_content resp = CompletionContent c ∧
    prompt_tokens (usage c) = estimate_request_tokens encode request ∧
    total_tokens (usage c) = prompt_tokens (usage c) + completion_tokens (usage c) ∧
    0 ≤ completion_tokens (usage c) ∧
    clock w ≤ t ∧ t ≤ clock w' ∧
    redis w' = recorded (clock w') (seg_of t) (replace a "Bearer " "")
                 (prompt_tokens (usage c)) (completion_tokens (usage c)) (redis w) ∧
    tasks w' = tasks w ++ [metric_key Rpm (replace a "Bearer " "");
                           metric_key InputTpm (replace a "Bearer " "");
                           metric_key OutputTpm (replace a "Bearer " "")].
Proof.
  intros H Hs.
  destruct (chat_completions_200 _ _ _ _ _ H Hs)
    as (a & info & w1 & c & w3 & -> & Hc & Hm & Hrec & Hcont).
  apply check_rate_limit_reads in Hc as (Rc & Tc & Cc & _).
  apply generate_mock_response_usage in Hm as ((Rm & Tm & Cm & _) & _ & Hp & Ht & H0).
  rewrite record_usage_eq in Hrec. cbv zeta in Hrec.
  destruct (next_fails _); [discriminate|]. injection Hrec as <-.
  pose proof (after_tick_clock w1). pose proof (after_tick_clock w3).
  pose proof (after_tick_clock (after_tick w3)).
  rewrite after_tick_redis in Rm. rewrite after_tick_tasks in Tm.
  exists a, c, (clock (after_tick w3)).
  split; [done|]. split; [done|]. split; [done|]. split; [done|]. split; [done|].
  split; [lia|]. split; [simpl; lia|]. split.
  - simpl. rewrite !after_tick_redis, Rm, Rc. reflexivity.
  - simpl. rewrite !after_tick_tasks, Tm, Tc, <- !app_assoc. reflexivity.
Qed.

(** With a registered key the handler raises nothing but the store's
    exception. *)
Lemma chat_completions_with_key_Raise request k lims w e w' :
  Config.API_KEY_LIMITS !! k = Some lims →
  chat_completions_with_key encode isoformat request k w = (Raise e, w') →
  e = RedisError.
Proof.
  intros Hk H.
  destruct (chat_completions_with_key_cases encode isoformat request k w lims Hk)
    as [(w0 & _ & Hr)|[(info & w1 & hs & _ & _ & Hr)
                      |(info & w1 & hs & r & w3 & _ & _ & _ &
                        [(w0 & _ & Hr)|(w0 & _ & Hr)])]];
    rewrite Hr in H; by inversion H.
Qed.

(** X6.  A request without an [Authorization] header, or with one that does
    not start with ["Bearer "] (the empty header included), is refused with
    401 "Invalid authorization header"; one whose extracted key is not
    registered is refused with 401 "Invalid API key".  In both cases the
    world is left exactly as it was: no command reaches the store.  The
    handler raises no other HTTP error. *)
Theorem authentication_failures_touch_nothing request authorization w :
  ((∀ a, authorization = Some a → startswith a "Bearer " = false) →
   chat_completions encode isoformat request authorization w
   = (Raise (HTTPException 401 "Invalid authorization header"
                           "invalid_request_error"), w)) ∧
  (∀ a, authorization = Some a → startswith a "Bearer " = true →
        Config.API_KEY_LIMITS !! replace a "Bearer " "" = None →
        chat_completions encode isoformat request authorization w
        = (Raise (HTTPException 401 "Invalid API key" "invalid_request_error"), w)) ∧
  (∀ status msg type w',
      chat_completions encode isoformat request authorization w
      = (Raise (HTTPException status msg type), w') →
      status = 401 ∧ type = "invalid_request_error" ∧ w' = w ∧
      ((msg = "Invalid authorization header" ∧
        ∀ a, authorization = Some a → startswith a "Bearer " = false) ∨
       (msg = "Invalid API key" ∧
        ∃ a, authorization = Some a ∧ startswith a "Bearer " = true ∧
             Config.API_KEY_LIMITS !! replace a "Bearer " "" = None))).
Proof.
  split; [|split].
  - intros Hno. unfold chat_completions. destruct authorization as [a|]; [|done].
    by rewrite (Hno a eq_refl).
  - intros a -> Hs Hk. unfold chat_completions. rewrite Hs. cbv zeta.
    unfold chat_completions_with_key. by rewrite Hk.
  - intros status msg type w' H. unfold chat_completions in H.
    destruct authorization as [a|]; cycle 1.
    { injection H as <- <- <- <-. repeat split; try done. left. by split. }
    destruct (startswith a "Bearer ") eqn:Hs; cycle 1.
    { injection H as <- <- <- <-. repeat split; try done. left.
      split; [done|]. by intros ? [= <-]. }
    cbv zeta in H.
    destruct (Config.API_KEY_LIMITS !! replace a "Bearer " "") as [lims|] eqn:Hk.
    + by apply (chat_completions_with_key_Raise _ _ lims) in H.
    + unfold chat_completions_with_key in H. rewrite Hk in H.
      injection H as <- <- <- <-. repeat split; try done. right.
      split; [done|]. by exists a.
Qed.

(** What a request can do to the store. *)
Lemma chat_completions_redis request a w res w' :
  chat_completions encode isoformat request (Some a) w = (res, w') →
  redis w' = redis w ∨
  ∃ t s x y, redis w' = recorded t s (replace a "Bearer " "") x y (redis w).
Proof.
  intros H.
  destruct (chat_completions_cases encode isoformat request (Some a) w)
    as [(msg & Hm)|(a' & lims & [= <-] & _ & Hk & Heq)].
  { rewrite Hm in H. inversion H; subst. by left. }
  rewrite Heq in H.
  destruct (chat_completions_with_key_cases encode isoformat request _ w lims Hk)
    as [(w0 & Hc & Hr)|[(info & w1 & hs & Hc & _ & Hr)
                       |(info & w1 & hs & r & w3 & Hc & _ & Hm &
                         [(w0 & Hrec & Hr)|(w0 & Hrec & Hr)])]];
    rewrite Hr in H; inversion H; subst;
    apply check_rate_limit_reads in Hc as (Rc & _).
  - by left.
  - left. by rewrite after_tick_redis.
  - left. apply generate_mock_response_usage in Hm as ((Rm & _) & _).
    apply record_usage_Raise in Hrec as (Rr & _).
    rewrite after_tick_redis in Rm. congruence.
  - right. apply generate_mock_response_usage in Hm as ((Rm & _) & _).
    rewrite after_tick_redis in Rm.
    rewrite record_usage_eq in Hrec. cbv zeta in Hrec.
    destruct (next_fails _); [discriminate|]. injection Hrec as <-.
    eexists _, _, _, _. simpl. rewrite !after_tick_redis, Rm, Rc. reflexivity.
Qed.

(** X8.  A request changes nothing in the store but the three counters of
    the key extracted from its header: every other key, the counters of
    every other API key among them, holds afterwards what it held before
    and reads the same. *)
Theorem request_touches_only_its_own_counters request a w res w' :
  chat_completions encode isoformat request (Some a) w = (res, w') →
  (∀ key, (∀ m, key ≠ metric_key m (replace a "Bearer " "")) →
          kv (redis w') key = kv (redis w) key) ∧
  (∀ api_key m t_read t_cmd,
      api_key ≠ replace a "Bearer " "" →
      window_sum_at (redis w') t_read t_cmd (metric_key m api_key)
      = window_sum_at (redis w) t_read t_cmd (metric_key m api_key)).
Proof.
  intros H.
  assert (∀ key, (∀ m, key ≠ metric_key m (replace a "Bearer " "")) →
                 kv (redis w') key = kv (redis w) key) as Hkv.
  { intros key Hne.
    apply chat_completions_redis in H as [->|(t & s & x & y & ->)]; [done|].
    by apply recorded_other. }
  split; [done|].
  intros api_key m t_read t_cmd Hne. rewrite !window_sum_at_win.
  rewrite (hash_at_kv (redis w') (redis w)); [done|].
  apply Hkv. intros m' Heq. by apply metric_key_inj in Heq as [_ ?].
Qed.

Lemma window_sum_at_nonneg r t t_read t_cmd key :
  well_formed r t → 0 ≤ window_sum_at r t_read t_cmd key.
Proof.
  intros Hwf. rewrite window_sum_at_win. apply zsum_nonneg. intros i _.
  destruct (Hwf key i) as [H0 _]. by apply cnt_hash_at_le.
Qed.

(** X12.  While no counter of the store is negative, a request whose input
    estimate exceeds the input limit of its key, or whose output reservation
    exceeds the output limit, is never answered with 200: any response it
    gets is a 429. *)
Theorem oversized_request_is_rejected request a w resp w' :
  chat_completions encode isoformat request (Some a) w = (Ok resp, w') →
  well_formed (redis w) (clock w) →
  input_tpm (Config.get_api_key_limits (replace a "Bearer " ""))
    < estimate_request_tokens encode request ∨
  output_tpm (Config.get_api_key_limits (replace a "Bearer " ""))
    < output_reservation request →
  status_code resp = 429.
Proof.
  intros H Hwf Hbig.
  destruct (chat_completions_cases encode isoformat request (Some a) w)
    as [(msg & Hm)|(a' & lims & [= <-] & _ & Hk & Heq)]; [congruence|].
  rewrite Heq in H.
  destruct (chat_completions_with_key_cases encode isoformat request _ w lims Hk)
    as [(w0 & Hc & Hr)|[(info & w1 & hs & Hc & _ & Hr)
                       |(info & w1 & hs & r & w3 & Hc & _ & Hm &
                         [(w0 & Hrec & Hr)|(w0 & Hrec & Hr)])]];
    rewrite Hr in H; inversion H; subst; [done|].
  exfalso. apply check_rate_limit_passed in Hc as (_ & _ & Hadm).
  destruct Hbig as [Hbig|Hbig].
  - destruct (Hadm InputTpm) as (t1 & t2 & _ & _ & _ & Hle). simpl in Hle.
    pose proof (window_sum_at_nonneg (redis w) (clock w) t1 t2
                  (metric_key InputTpm (replace a "Bearer " "")) Hwf). simpl in *. lia.
  - destruct (Hadm OutputTpm) as (t1 & t2 & _ & _ & _ & Hle). simpl in Hle.
    pose proof (window_sum_at_nonneg (redis w) (clock w) t1 t2
                  (metric_key OutputTpm (replace a "Bearer " "")) Hwf). simpl in *. lia.
Qed.

(** X11.  In every sequential execution from an empty store no counter is
    ever negative and none is held for a segment that has not begun; so
    every window sum read is non-negative. *)
Theorem sequential_store_is_well_formed evs w :
  redis w = empty_redis →
  let w' := run encode isoformat evs w in
  well_formed (redis w') (clock w') ∧
  ∀ key t_read t_cmd, 0 ≤ window_sum_at (redis w') t_read t_cmd key.
Proof.
  intros Hr. cbv zeta.
  assert (well_formed (redis (run encode isoformat evs w))
            (clock (run encode isoformat evs w))) as Hwf.
  { assert (well_formed (redis w) (clock w)) as H0
      by (rewrite Hr; apply well_formed_empty).
    clear Hr. revert w H0. induction evs as [|ev evs IH]; intros w H0; [done|].
    simpl. apply IH. by apply step_well_formed. }
  split; [done|]. intros. by eapply window_sum_at_nonneg.
Qed.

End HandlerExtra.

(** ** Deadlines *)

Lemma deadlines_ok_empty t : deadlines_ok empty_redis t.
Proof. intros key z v. unfold raw. simpl. by rewrite lookup_empty. Qed.

Lemma deadlines_ok_later r t t' : deadlines_ok r t → t ≤ t' → deadlines_ok r t'.
Proof.
  intros H Ht key z v Hv. destruct (H key z v Hv) as (d & Hd & H1 & H2).
  exists d. repeat split; [done|done|lia].
Qed.

Lemma deadlines_ok_kv r r' t :
  deadlines_ok r t → (∀ key, kv r' key = kv r key) → deadlines_ok r' t.
Proof.
  intros H Hkv key z v Hv. specialize (Hkv key). unfold kv in Hkv.
  injection Hkv as Hh He. unfold raw in Hv. rewrite Hh in Hv. rewrite He.
  by apply (H key z v).
Qed.

Lemma hash_at_lookup_raw t r key f v :
  hash_at t r key !! f = Some v → raw r key !! f = Some v.
Proof.
  destruct (hash_at_cases t r key) as [[_ ->]|[_ ->]]; [by rewrite lookup_empty|done].
Qed.

Lemma deadlines_ok_hdel t t' key fs r :
  deadlines_ok r t' → deadlines_ok (hdel t key fs r) t'.
Proof.
  intros H key' z v Hv.
  destruct (decide (key = key')) as [<-|Hne]; cycle 1.
  { pose proof (apply_cmd_other t r (HDEL key fs) key' Hne) as Hkv.
    unfold kv in Hkv. injection Hkv as Hh He. simpl in Hh, He.
    unfold raw in Hv. rewrite Hh in Hv. rewrite He. by apply (H key' z v). }
  revert Hv. unfold hdel. cbv zeta. case_decide as He; unfold raw; simpl.
  - by rewrite lookup_delete_eq.
  - rewrite lookup_insert_eq. simpl. intros Hv.
    apply lookup_foldr_delete_Some in Hv as [Hv _].
    apply hash_at_lookup_raw in Hv. by apply (H key z v).
Qed.

Lemma deadlines_ok_recorded r t0 t_r t_c api_key a b :
  deadlines_ok r t0 → t0 ≤ t_r → t_r ≤ t_c →
  deadlines_ok (recorded t_c (seg_of t_r) api_key a b r) t_c.
Proof.
  intros H H1 H2 key z v Hv.
  destruct (metric_key_cases key api_key) as [[m ->]|Hne].
  - pose proof (recorded_kv m t_c (seg_of t_r) api_key a b r) as Hkv.
    cbv zeta in Hkv. unfold kv in Hkv. injection Hkv as Hh He.
    unfold raw in Hv. rewrite Hh in Hv. simpl in Hv.
    exists (t_c + window_size * 2 * usec). split; [done|]. split; [|lia].
    destruct (decide (z = seg_of t_r)) as [->|Hz].
    + pose proof (seg_of_bounds t_r). pose proof (quot_usec_bounds t_r).
      change segment_size with 5 in *. change window_size with 60.
      unfold usec in *. lia.
    + rewrite lookup_insert_ne in Hv by (intros Heq; by apply str_inj in Heq).
      apply hash_at_lookup_raw in Hv.
      destruct (H _ z v Hv) as (d & _ & Hd1 & Hd2). lia.
  - pose proof (recorded_other t_c (seg_of t_r) api_key a b r key Hne) as Hkv.
    unfold kv in Hkv. injection Hkv as Hh He.
    unfold raw in Hv. rewrite Hh in Hv. rewrite He.
    destruct (H key z v Hv) as (d & Hd & Hd1 & Hd2).
    exists d. repeat split; [done|done|lia].
Qed.

(** What a clean-up can do to the store. *)
Lemma clean_old_segments_redis key w res w' :
  _clean_old_segments key w = (res, w') →
  clock w ≤ clock w' ∧
  (redis w' = redis w ∨ ∃ t fs, redis w' = hdel t key fs (redis w)).
Proof.
  intros H. split; [by apply clean_old_segments_shrunk in H as [_ ?]|].
  revert H. rewrite clean_old_segments_eq. cbv zeta.
  assert (redis (after_tick (after_tick w)) = redis w) as Hr2
    by (by rewrite !after_tick_redis).
  destruct (next_fails _); [intros [= _ <-]; by left|].
  destruct (hkeys _ key (redis w)) as [|f0 fs0]; [intros [= _ <-]; by left|].
  destruct (old_fields _ _) as [|f1 fs1]; [intros [= _ <-]; by left|].
  destruct (next_fails _); intros [= _ <-]; simpl; rewrite after_tick_redis; simpl;
    rewrite Hr2; [by left|right; by eexists _, _].
Qed.

Section Deadlines.
Variable encode : string → list Z.
Variable isoformat : Z → string.

Lemma step_deadlines_ok ev w :
  deadlines_ok (redis w) (clock w) →
  deadlines_ok (redis (step encode isoformat w ev)) (clock (step encode isoformat w ev)).
Proof.
  intros Hd. destruct ev as [request authorization|i|]; simpl.
  - destruct (chat_completions encode isoformat request authorization w)
      as [res w'] eqn:H. simpl.
    apply chat_completions_step in H as [[Hr Hc]|(k & b & Hs)].
    + rewrite Hr. by eapply deadlines_ok_later.
    + destruct Hs as (t_r & Hadm & Ht & _ & ->).
      destruct (Hadm Rpm) as (t1 & t2 & ? & ? & ? & _).
      eapply deadlines_ok_recorded; [done|lia|done].
  - unfold run_task. destruct (tasks w !! i) as [key|]; [|done].
    destruct (_clean_old_segments key _) as [res w'] eqn:H. simpl.
    apply clean_old_segments_redis in H as [Hc [->|(t & fs & ->)]]; simpl in *.
    + by eapply deadlines_ok_later.
    + apply deadlines_ok_hdel. by eapply deadlines_ok_later.
  - fold (after_tick w). rewrite after_tick_redis.
    eapply deadlines_ok_later; [done|apply after_tick_clock].
Qed.

Lemma run_deadlines_ok evs w :
  deadlines_ok (redis w) (clock w) →
  deadlines_ok (redis (run encode isoformat evs w)) (clock (run encode isoformat evs w)).
Proof.
  revert w. induction evs as [|ev evs IH]; intros w H; [done|].
  simpl. apply IH. by apply step_deadlines_ok.
Qed.

End Deadlines.

(** A deadline that has passed belongs to a key whose counters have all
    left the window. *)
Lemma deadlines_ok_window r t key i :
  deadlines_ok r t → window_start_segment t ≤ i →
  cnt (hash_at t r key) i = cnt (raw r key) i.
Proof.
  intros H Hi. destruct (hash_at_cases t r key) as [[E ->]|[_ ->]]; [|done].
  rewrite cnt_empty. unfold cnt.
  destruct (raw r key !! str i) as [v|] eqn:Hv; [|done]. exfalso.
  destruct (H key i v Hv) as (d & Hd & Hd1 & _).
  unfold expired in E. rewrite Hd in E. apply bool_decide_eq_true in E.
  pose proof (seg_of_bounds t). pose proof (quot_usec_bounds t).
  unfold window_start_segment in Hi.
  change segment_size with 5 in *. change window_size with 60 in *.
  change segments with 12 in *. unfold usec in *. lia.
Qed.

(** X3.  In every sequential execution from an empty store, every key that
    holds a counter has a deadline at most two windows ahead, and a deadline
    never passes while one of the key's counters is still in the window: the
    usage read at any point is the sum of the stored counters of the window,
    none of them hidden by expiry. *)
Theorem expiry_never_hides_window_counters encode isoformat evs w key :
  redis w = empty_redis →
  let w' := run encode isoformat evs w in
  deadlines_ok (redis w') (clock w') ∧
  used (redis w') (clock w') key = win (cnt (raw (redis w') key)) (seg_of (clock w')).
Proof.
  intros Hr. cbv zeta.
  assert (deadlines_ok (redis (run encode isoformat evs w))
            (clock (run encode isoformat evs w))) as Hd.
  { apply run_deadlines_ok. rewrite Hr. apply deadlines_ok_empty. }
  split; [done|]. unfold used. rewrite window_sum_at_win. apply zsum_ext.
  intros i Hi. apply deadlines_ok_window; [done|].
  unfold window_start_segment. lia.
Qed.

(** ** Sliding out of the window *)

(** X7.  In a store that holds no counter for a segment to come, what
    [record_usage] records is no longer counted once [segments] segments
    have begun since: a window sum of one of the key's counters read then
    returns 0. *)
Theorem usage_forgotten_after_a_window api_key a b w w1 m w1' s w2 :
  record_usage api_key a b w = (Ok tt, w1) →
  well_formed (redis w) (clock w) →
  reads w1 w1' →
  seg_of (clock w1) + segments ≤ seg_of (clock w1') →
  _get_window_sum (metric_key m api_key) w1' = (Ok s, w2) →
  s = 0.
Proof.
  intros Hrec Hwf (Hr & _ & Hc & _) Hseg Hsum.
  rewrite record_usage_eq in Hrec. cbv zeta in Hrec.
  destruct (next_fails _); [discriminate|]. injection Hrec as Hw1.
  apply get_window_sum_Ok in Hsum as (t_read & t_cmd & H1 & H2 & H3 & ->).
  set (t0 := clock (after_tick w)) in *.
  set (t_rec := clock (after_tick (after_tick w))) in *.
  assert (clock w ≤ t0) by apply after_tick_clock.
  assert (t0 ≤ t_rec) by apply after_tick_clock.
  assert (clock w1 = t_rec) as Hc1 by (by rewrite <- Hw1).
  assert (redis w1 = recorded t_rec (seg_of t0) api_key a b (redis w)) as Hr1.
  { rewrite <- Hw1. simpl. by rewrite !after_tick_redis. }
  rewrite Hc1 in Hseg.
  assert (seg_of (clock w) ≤ seg_of t0) by (by apply seg_of_mono).
  assert (seg_of t0 ≤ seg_of t_rec) by (by apply seg_of_mono).
  assert (seg_of (clock w1') ≤ seg_of t_read) by (by apply seg_of_mono).
  rewrite Hr, Hr1, window_sum_at_win. apply zsum_zero. intros i Hi.
  destruct (cnt_hash_at t_cmd (recorded t_rec (seg_of t0) api_key a b (redis w))
              (metric_key m api_key) i) as [-> | ->]; [|done].
  rewrite recorded_cnt. rewrite decide_False by lia.
  destruct (Hwf (metric_key m api_key) i) as [_ Hz].
  destruct (cnt_hash_at t_rec (redis w) (metric_key m api_key) i) as [-> | ->]; [|done].
  rewrite Hz; lia.
Qed.

(** ** [_increment_counter] *)

Lemma increment_counter_eq key segment value w :
  _increment_counter key segment value w =
  let w1 := after_tick w in
  let cmds := [HINCRBY key (str segment) value; EXPIRE key (window_size * 2)] in
  if next_fails w1 then (Raise RedisError, sent_failed cmds w1)
  else (Ok tt, sent_ok cmds w1).
Proof.
  unfold _increment_counter, pipeline_execute. cbv zeta.
  by rewrite round_trip_eq, send_eq.
Qed.

Lemma incremented_kv t key segment value r :
  kv (expire t key (window_size * 2) (hincrby t key (str segment) value r)) key
  = (Some (<[str segment := cnt (hash_at t r key) segment + value]> (hash_at t r key)),
     Some (t + window_size * 2 * usec)).
Proof.
  pose proof (hincrby_kv t key (str segment) value r) as Hk.
  unfold kv in Hk. injection Hk as Hh _.
  erewrite expire_kv; [reflexivity|exact Hh|apply hincrby_live].
Qed.

(** X9.  After [_increment_counter(key, segment, value)], a window sum of
    the key read before the new deadline returns what the store held for
    that window when the increment reached it, plus [value] if [segment]
    lies in the window, and the same otherwise. *)
Theorem increment_counter_then_window_sum key segment value w w1 w1' s w2 e :
  _increment_counter key segment value w = (Ok tt, w1) →
  reads w1 w1' →
  _get_window_sum key w1' = (Ok s, w2) →
  seg_of (clock w1') = e → seg_of (clock w2) = e →
  clock w2 < clock w1 + window_size * 2 * usec →
  s = win (cnt (hash_at (clock w1) (redis w) key)) e
      + if bool_decide (e - segments < segment ≤ e) then value else 0.
Proof.
  intros Hinc (Hr & _ & Hc & _) Hsum He1 He2 Hlive.
  rewrite increment_counter_eq in Hinc. cbv zeta in Hinc.
  destruct (next_fails _); [discriminate|]. injection Hinc as Hw1.
  apply get_window_sum_Ok in Hsum as (t_read & t_cmd & H1 & H2 & H3 & ->).
  set (t := clock (after_tick w)) in *.
  assert (clock w1 = t) as Hc1 by (by rewrite <- Hw1).
  assert (redis w1 = expire t key (window_size * 2)
                       (hincrby t key (str segment) value (redis w))) as Hr1.
  { rewrite <- Hw1. simpl. by rewrite after_tick_redis. }
  assert (seg_of t_read = e) as Hread.
  { apply Z.le_antisymm.
    - rewrite <- He2. apply seg_of_mono. lia.
    - rewrite <- He1. by apply seg_of_mono. }
  rewrite Hr, Hr1, Hc1, window_sum_at_win, Hread.
  rewrite (hash_at_of_kv _ _ _ _ _ (incremented_kv t key segment value (redis w)))
    by lia.
  unfold win.
  rewrite (zsum_bump (cnt (hash_at t (redis w) key)) _ segment value).
  - f_equal. pose proof segments_pos.
    repeat case_bool_decide; try done; lia.
  - rewrite cnt_insert. by rewrite decide_True.
  - intros i Hi. rewrite cnt_insert. by rewrite decide_False.
Qed.

(** ** The window of a snapshot *)


(** ** Repeating a check *)

(** While deadlines are in order, a window sum whose read and command fall
    in one segment is the sum of the stored counters of the window. *)
Lemma window_sum_at_raw r t0 t_read t_cmd key :
  deadlines_ok r t0 → t0 ≤ t_cmd → seg_of t_cmd = seg_of t_read →
  window_sum_at r t_read t_cmd key = win (cnt (raw r key)) (seg_of t_read).
Proof.
  intros Hd Ht Hs. rewrite window_sum_at_win. apply zsum_ext. intros i Hi.
  apply deadlines_ok_window; [by eapply deadlines_ok_later|].
  unfold window_start_segment. rewrite Hs. lia.
Qed.

(** X14.  A check can be repeated: while deadlines are in order (as they are
    in every sequential execution from an empty store), two checks of the
    same request that fall in one segment, with nothing but reads between
    them, return the same decision and the same snapshot. *)
Theorem check_is_repeatable encode api_key request w a1 i1 w1 w1' a2 i2 w2 :
  deadlines_ok (redis w) (clock w) →
  check_rate_limit encode api_key request w = (Ok (a1, i1), w1) →
  reads w1 w1' →
  check_rate_limit encode api_key request w1' = (Ok (a2, i2), w2) →
  seg_of (clock w) = seg_of (clock w2) →
  a1 = a2 ∧ i1 = i2.
Proof.
  intros Hd H1 (Rm & _ & Cm & _) H2 Hseg.
  pose proof (check_rate_limit_reads _ _ _ _ _ _ H1) as (R1 & _ & C1 & _).
  pose proof (check_rate_limit_reads _ _ _ _ _ _ H2) as (R2 & _ & C2 & _).
  assert (∀ t, clock w ≤ t → t ≤ clock w2 → seg_of t = seg_of (clock w)) as Hsame.
  { intros t Ha Hb. apply Z.le_antisymm.
    - rewrite Hseg. by apply seg_of_mono.
    - by apply seg_of_mono. }
  assert (∀ key v u v', clock w ≤ clock v → clock v' ≤ clock w2 →
            redis v = redis w →
            _get_window_sum key v = (Ok u, v') →
            u = win (cnt (raw (redis w) key)) (seg_of (clock w))) as Hsum.
  { intros key v u v' Hv Hv' Hr Hg.
    apply get_window_sum_Ok in Hg as (t_read & t_cmd & ? & ? & ? & ->).
    rewrite Hr, (window_sum_at_raw _ (clock w)); [|done|lia|].
    - by rewrite (Hsame t_read) by lia.
    - by rewrite (Hsame t_read), (Hsame t_cmd) by lia. }
  apply check_rate_limit_inv in H1
    as [(u1 & v1 & u2 & v2 & u3 & v3 & G1 & G2 & G3 & -> & [= -> ->])|([=] & _)].
  apply check_rate_limit_inv in H2
    as [(u1' & v1' & u2' & v2' & u3' & v3' & G1' & G2' & G3' & -> & [= -> ->])|([=] & _)].
  pose proof (get_window_sum_reads _ _ _ _ G1) as (Q1 & _ & D1 & _).
  pose proof (get_window_sum_reads _ _ _ _ G2) as (Q2 & _ & D2 & _).
  pose proof (get_window_sum_reads _ _ _ _ G3) as (Q3 & _ & D3 & _).
  pose proof (get_window_sum_reads _ _ _ _ G1') as (Q1' & _ & D1' & _).
  pose proof (get_window_sum_reads _ _ _ _ G2') as (Q2' & _ & D2' & _).
  pose proof (get_window_sum_reads _ _ _ _ G3') as (Q3' & _ & D3' & _).
  pose proof (after_tick_clock v3). pose proof (after_tick_clock v3').
  rewrite after_tick_redis in R1, Rm.
  apply Hsum in G1; [|lia|lia|done].
  apply Hsum in G2; [|lia|lia|congruence].
  apply Hsum in G3; [|lia|lia|congruence].
  apply Hsum in G1'; [|lia|lia|congruence].
  apply Hsum in G2'; [|lia|lia|congruence].
  apply Hsum in G3'; [|lia|lia|congruence].
  subst. unfold snapshot.
  rewrite (Hsame (clock (after_tick v3))), (Hsame (clock (after_tick v3'))) by lia.
  done.
Qed.

(** ** The registry of limits *)


(** * The model at work: instances and counterexamples

    The tokenizer is [word_encode] and timestamps print as numbers. *)

(** A run that returned: its outcome and final world. *)
Lemma returned_Some {A} (x : Res A * World) a :
  returned x = Some a → x = (Ok a, x.2).
Proof. destruct x as [[b|e] w]; unfold returned; simpl; [by intros [= ->]|done]. Qed.

(** An observation [f] of what a run returned. *)
Lemma returned_with {A B} (f : A → B) (x : Res A * World) b :
  f <$> returned x = Some b → ∃ a, x = (Ok a, x.2) ∧ f a = b.
Proof.
  destruct x as [[a|e] w]; unfold returned; simpl; [|done].
  intros [= <-]. by exists a.
Qed.


(** The first request of a key is let through. *)
Example first_request_allowed :
  ∃ info w',
    check_rate_limit word_encode "test-key-1" (hi_request None) w_start
    = (Ok (true, info), w').
Proof. eexists _, _. vm_compute. reflexivity. Qed.

(** C2 as stated fails: ninety-one requests with [max_tokens = 1], handled
    one after the other within one segment, are all let through (each reserves
    one output token), and each records the eleven tokens of the stub's
    completion, so that 1001 output tokens are recorded against a limit of
    1000. *)
Lemma sequential_output_usage_counterexample :
  let evs := repeat (EvRequest (hi_request (Some 1)) (Some "Bearer test-key-1")) 91 in
  let w' := run word_encode plain_isoformat evs w_start in
  redis w_start = empty_redis ∧
  used (redis w') (clock w') (metric_key OutputTpm "test-key-1") = 1001 ∧
  output_tpm (Config.get_api_key_limits "test-key-1") = 1000 ∧
  ¬ (used (redis w') (clock w') (metric_key OutputTpm "test-key-1")
     ≤ output_tpm (Config.get_api_key_limits "test-key-1")).
Proof.
  vm_compute. split; [reflexivity|]. split; [reflexivity|]. split; [reflexivity|].
  intros H. by apply H.
Defined.

Lemma sequential_usage_within_limits_witness :
  let evs := [EvRequest (hi_request None) (Some "Bearer test-key-1");
              EvTask 0; EvIdle;
              EvRequest (hi_request (Some 100)) (Some "Bearer test-key-1")] in
  let w' := run word_encode plain_isoformat evs w_start in
  redis w_start = empty_redis ∧
  Forall (event_fits word_encode) evs ∧
  used (redis w') (clock w') (metric_key Rpm "test-key-1")
    ≤ rpm (Config.get_api_key_limits "test-key-1") ∧
  used (redis w') (clock w') (metric_key InputTpm "test-key-1")
    ≤ input_tpm (Config.get_api_key_limits "test-key-1") ∧
  used (redis w') (clock w') (metric_key OutputTpm "test-key-1")
    ≤ output_tpm (Config.get_api_key_limits "test-key-1").
Proof.
  cbv zeta.
  assert (Forall (event_fits word_encode)
            [EvRequest (hi_request None) (Some "Bearer test-key-1");
             EvTask 0; EvIdle;
             EvRequest (hi_request (Some 100)) (Some "Bearer test-key-1")]) as Hfit.
  { repeat constructor; by vm_compute. }
  split; [reflexivity|]. split; [exact Hfit|].
  destruct (sequential_usage_within_limits word_encode plain_isoformat
              [EvRequest (hi_request None) (Some "Bearer test-key-1");
               EvTask 0; EvIdle;
               EvRequest (hi_request (Some 100)) (Some "Bearer test-key-1")]
              w_start "test-key-1" eq_refl) as (H1 & H2 & H3).
  split; [exact H1|]. split; [exact H2|]. exact (H3 Hfit).
Defined.



Lemma record_then_window_sum_witness :
  ∃ w1 s w2,
    record_usage "test-key-1" 8 11 w_start = (Ok tt, w1) ∧
    _get_window_sum (metric_key OutputTpm "test-key-1") w1 = (Ok s, w2) ∧
    seg_of (clock w_start) = seg_of (clock w2) ∧
    s = used (redis w_start) (clock w1) (metric_key OutputTpm "test-key-1") + 11.
Proof.
  pose (out := record_usage "test-key-1" 8 11 w_start).
  pose (out2 := _get_window_sum (metric_key OutputTpm "test-key-1") out.2).
  assert (returned out = Some tt) as H1 by (vm_compute; reflexivity).
  assert (is_Some (returned out2)) as [s H2] by (vm_compute; eauto).
  assert (seg_of (clock w_start) = seg_of (clock out2.2)) as H3
    by (vm_compute; reflexivity).
  apply returned_Some in H1, H2. unfold out2 in H2, H3. unfold out in H1.
  eexists _, s, _. split; [exact H1|]. split; [exact H2|]. split; [exact H3|].
  exact (record_then_window_sum "test-key-1" 8 11 w_start _ OutputTpm _ _ _
           H1 (reads_refl _) H2 H3).
Defined.

(** C5 as stated fails.  With a store whose next two round trips fail, the
    handler raises the store's exception instead of answering 503, and it
    has sent a single command: the failed read was not tried again, and the
    second failure is still to come. *)
Lemma store_failure_counterexample :
  ∃ w',
    chat_completions word_encode plain_isoformat (hi_request None)
      (Some "Bearer test-key-1") (w_faulty [true; true])
    = (Raise RedisError, w') ∧
    length (log w') = 1%nat ∧
    faults w' = [true] ∧
    (∀ resp, fst (chat_completions word_encode plain_isoformat (hi_request None)
                    (Some "Bearer test-key-1") (w_faulty [true; true]))
             ≠ Ok resp).
Proof.
  eexists. split; [vm_compute; reflexivity|].
  split; [vm_compute; reflexivity|]. split; [vm_compute; reflexivity|].
  intros resp. vm_compute. discriminate.
Defined.

(** A single transient failure is enough: the request is lost although a
    second attempt would have succeeded. *)
Example single_failure_not_retried :
  ∃ w',
    chat_completions word_encode plain_isoformat (hi_request None)
      (Some "Bearer test-key-1") (w_faulty [true])
    = (Raise RedisError, w') ∧
    length (log w') = 1%nat ∧ faults w' = [].
Proof. eexists. repeat split; vm_compute; reflexivity. Qed.

Lemma failed_read_propagates_without_retry_witness :
  ∃ res w' l c,
    chat_completions word_encode plain_isoformat (hi_request None)
      (Some "Bearer test-key-1") (w_faulty [false; true])
    = (res, w') ∧
    log w' = log (w_faulty [false; true]) ++ l ∧
    (c, false) ∈ l ∧
    is_read c = true ∧
    res = Raise RedisError ∧
    redis w' = redis (w_faulty [false; true]) ∧
    tasks w' = tasks (w_faulty [false; true]) ∧
    ∃ l0, l = l0 ++ [(c, false)] ∧ length l0 = 1%nat.
Proof.
  eexists _, _, _, _.
  split; [vm_compute; reflexivity|].
  split; [vm_compute; reflexivity|].
  split; [right; left|].
  split; [reflexivity|].
  match goal with
  | |- ?res = _ ∧ redis ?w' = _ ∧ _ ∧ ∃ l0, ?l = _ ++ [(?c, _)] ∧ _ =>
      destruct (failed_read_propagates_without_retry
                  word_encode plain_isoformat (hi_request None)
                  (Some "Bearer test-key-1") (w_faulty [false; true])
                  res w' l c) as (H1 & H2 & H3 & l0 & H4 & H5);
      [vm_compute; reflexivity|vm_compute; reflexivity|right; left|reflexivity|]
  end.
  split; [exact H1|]. split; [exact H2|]. split; [exact H3|].
  exists l0. split; [exact H4|].
  apply (f_equal length) in H4. rewrite length_app in H4. simpl in H4. lia.
Defined.

Lemma check_reads_only_and_rejection_records_nothing_witness :
  ∃ info w1 resp w',
    check_rate_limit word_encode "test-key-1" (hi_request (Some 2000)) w_start
    = (Ok (false, info), w1) ∧
    reads w_start w1 ∧
    chat_completions word_encode plain_isoformat (hi_request (Some 2000))
      (Some "Bearer test-key-1") w_start = (Ok resp, w') ∧
    status_code resp = 429 ∧
    redis w' = redis w_start ∧ tasks w' = tasks w_start ∧ log w' = log w1.
Proof.
  eexists _, _.
  match goal with
  | |- ∃ resp w', ?c = (Ok (false, ?info), ?w1) ∧ _ =>
      assert (c = (Ok (false, info), w1)) as Hc by (vm_compute; reflexivity)
  end.
  destruct (check_reads_only_and_rejection_records_nothing
              word_encode plain_isoformat) as [Hreads Hrej].
  destruct (Hrej (hi_request (Some 2000)) "Bearer test-key-1" w_start _ _
              {| input_tpm := 1000; output_tpm := 1000; rpm := 10000 |}
              eq_refl ltac:(vm_compute; reflexivity) Hc)
    as (resp & w' & H1 & H2 & H3 & H4 & H5 & _).
  exists resp, w'. split; [exact Hc|]. split; [exact (Hreads _ _ _ _ _ Hc)|].
  by repeat split.
Defined.

(** C8 as stated fails.  After one request has recorded eleven output
    tokens, a request with [max_tokens = 0] is rejected: 1000 tokens are
    reserved for it, although with a reservation of [max_tokens] all three
    tests of the admission check would pass. *)
Lemma zero_max_tokens_counterexample :
  let request := hi_request (Some 0) in
  let w := run word_encode plain_isoformat
             [EvRequest (hi_request None) (Some "Bearer test-key-1")] w_start in
  max_tokens request = Some 0 ∧
  output_reservation request = 1000 ∧
  ∃ info w',
    check_rate_limit word_encode "test-key-1" request w = (Ok (false, info), w') ∧
    rpm_used info + 1 ≤ rpm_limit info ∧
    input_tpm_used info + estimate_request_tokens word_encode request
      ≤ input_tpm_limit info ∧
    output_tpm_used info + 0 ≤ output_tpm_limit info.
Proof.
  cbv zeta. split; [reflexivity|]. split; [reflexivity|].
  eexists _, _. split; [vm_compute; reflexivity|].
  repeat split; by vm_compute.
Defined.

Lemma output_reservation_is_max_tokens_unless_unset_or_zero_witness :
  ∃ allowed info w',
    check_rate_limit word_encode "test-key-1" (hi_request (Some 100)) w_start
    = (Ok (allowed, info), w') ∧
    (allowed = true ↔
       rpm_used info + 1 ≤ rpm_limit info ∧
       input_tpm_used info
         + estimate_request_tokens word_encode (hi_request (Some 100))
         ≤ input_tpm_limit info ∧
       output_tpm_used info + 100 ≤ output_tpm_limit info).
Proof.
  eexists _, _, _. split; [vm_compute; reflexivity|].
  eapply (output_reservation_is_max_tokens_unless_unset_or_zero
            word_encode "test-key-1" (hi_request (Some 100)) w_start).
  vm_compute; reflexivity.
Defined.

Lemma rate_limit_headers_on_success_and_rejection_witness :
  ∃ resp w' allowed info w1 hs,
    chat_completions word_encode plain_isoformat (hi_request None)
      (Some "Bearer test-key-1") w_start = (Ok resp, w') ∧
    check_rate_limit word_encode "test-key-1" (hi_request None) w_start
    = (Ok (allowed, info), w1) ∧
    get_rate_limit_headers plain_isoformat "test-key-1" info w1
    = (Ok hs, after_tick w1) ∧
    headers resp = hs ∧
    status_code resp = if allowed then 200 else 429.
Proof.
  pose (out := chat_completions word_encode plain_isoformat (hi_request None)
                 (Some "Bearer test-key-1") w_start).
  assert (is_Some (returned out)) as [resp Hc] by (vm_compute; eauto).
  apply returned_Some in Hc. unfold out in Hc.
  destruct (rate_limit_headers_on_success_and_rejection
              word_encode plain_isoformat (hi_request None)
              (Some "Bearer test-key-1") w_start resp _ Hc)
    as (a & allowed & info & w1 & hs & Ha & H1 & H2 & H3 & H4).
  injection Ha as <-.
  eexists resp, _, allowed, info, w1, hs. split; [exact Hc|].
  split; [exact H1|]. split; [exact H2|]. split; [exact H3|exact H4].
Defined.

(** Both statuses occur, each with the headers attached. *)
Example headers_on_200_and_429 :
  (∃ resp w',
      chat_completions word_encode plain_isoformat (hi_request None)
        (Some "Bearer test-key-1") w_start = (Ok resp, w') ∧
      status_code resp = 200 ∧
      headers resp !! "X-RateLimit-Remaining-Requests" = Some "10000") ∧
  (∃ resp w',
      chat_completions word_encode plain_isoformat (hi_request (Some 2000))
        (Some "Bearer test-key-1") w_start = (Ok resp, w') ∧
      status_code resp = 429 ∧
      headers resp !! "X-RateLimit-Remaining-Tokens-Output" = Some "1000").
Proof.
  split.
  - destruct (returned_with
                (λ resp, (status_code resp,
                          headers resp !! "X-RateLimit-Remaining-Requests"))
                (chat_completions word_encode plain_isoformat (hi_request None)
                   (Some "Bearer test-key-1") w_start)
                (200, Some "10000")) as (resp & H1 & [= H2 H3]);
      [vm_compute; reflexivity|].
    eexists _, _. split; [exact H1|]. split; [exact H2|exact H3].
  - destruct (returned_with
                (λ resp, (status_code resp,
                          headers resp !! "X-RateLimit-Remaining-Tokens-Output"))
                (chat_completions word_encode plain_isoformat (hi_request (Some 2000))
                   (Some "Bearer test-key-1") w_start)
                (429, Some "1000")) as (resp & H1 & [= H2 H3]);
      [vm_compute; reflexivity|].
    eexists _, _. split; [exact H1|]. split; [exact H2|exact H3].
Qed.


(** A header whose key contains ["Bearer "] is served under another key. *)
Example mangled_key_served_as_another :
  ∃ resp w',
    chat_completions word_encode plain_isoformat (hi_request None)
      (Some "Bearer test-Bearer key-1") w_start = (Ok resp, w') ∧
    status_code resp = 200 ∧
    (log w').*1 !! 0%nat
    = Some (HMGET "rate_limit:rpm:test-key-1" (window_fields 1700000000000000)).
Proof.
  pose (out := chat_completions word_encode plain_isoformat (hi_request None)
                 (Some "Bearer test-Bearer key-1") w_start).
  destruct (returned_with status_code out 200) as (resp & H1 & H2);
    [vm_compute; reflexivity|].
  exists resp, out.2. split; [exact H1|]. split; [exact H2|].
  vm_compute; reflexivity.
Qed.

(** * Instances of the further properties *)

Lemma reads_later d w : 0 ≤ d → reads w (later d w).
Proof.
  intros Hd. repeat split; simpl; [lia|]. exists []. by rewrite app_nil_r.
Qed.

(** The clean-up of a key with a counter a hundred seconds old deletes that
    counter and keeps the current one. *)
Example clean_up_deletes_the_old_counter :
  let out := _clean_old_segments "rate_limit:rpm:test-key-1" w_two_records in
  returned out = Some tt ∧
  hkeys (clock w_two_records) "rate_limit:rpm:test-key-1" (redis w_two_records)
  = ["340000020"; "340000000"] ∧
  hkeys (clock out.2) "rate_limit:rpm:test-key-1" (redis out.2) = ["340000020"].
Proof. cbv zeta. split; [|split]; vm_compute; reflexivity. Qed.

Lemma clean_up_leaves_no_old_segment_witness :
  ∃ w',
    _clean_old_segments "rate_limit:rpm:test-key-1" w_two_records = (Ok tt, w') ∧
    hash_at (clock w') (redis w') "rate_limit:rpm:test-key-1" !! "340000020" = Some 1 ∧
    int "340000020" = Some 340000020 ∧
    window_start_segment (clock (after_tick w_two_records)) ≤ 340000020.
Proof.
  pose (out := _clean_old_segments "rate_limit:rpm:test-key-1" w_two_records).
  assert (returned out = Some tt) as H1 by (vm_compute; reflexivity).
  assert (hash_at (clock out.2) (redis out.2) "rate_limit:rpm:test-key-1"
            !! "340000020" = Some 1) as H2 by (vm_compute; reflexivity).
  apply returned_Some in H1. exists out.2.
  split; [exact H1|]. split; [exact H2|]. split; [vm_compute; reflexivity|].
  exact (clean_up_leaves_no_old_segment _ _ _ _ _ _ H1 H2
           ltac:(vm_compute; reflexivity)).
Defined.

Lemma clean_up_keeps_window_sums_witness :
  ∃ res w',
    _clean_old_segments "rate_limit:rpm:test-key-1" w_two_records = (res, w') ∧
    clock w' ≤ 1700000101000000 ∧
    window_sum_at (redis w') 1700000101000000 1700000101000000
                  "rate_limit:rpm:test-key-1"
    = window_sum_at (redis w_two_records) 1700000101000000 1700000101000000
                    "rate_limit:rpm:test-key-1".
Proof.
  destruct (_clean_old_segments "rate_limit:rpm:test-key-1" w_two_records)
    as [res w'] eqn:Hx.
  assert (clock w' ≤ 1700000101000000) as Hc.
  { change w' with (res, w').2. rewrite <- Hx. by vm_compute. }
  exists res, w'. split; [reflexivity|]. split; [exact Hc|].
  apply (clean_up_keeps_window_sums _ _ _ _ _ _ _ Hx Hc). lia.
Defined.

Lemma expiry_never_hides_window_counters_witness :
  let evs := [EvRequest (hi_request None) (Some "Bearer test-key-1"); EvTask 0;
              EvRequest (hi_request (Some 100)) (Some "Bearer test-key-1")] in
  let w' := run word_encode plain_isoformat evs w_start in
  redis w_start = empty_redis ∧
  used (redis w') (clock w') "rate_limit:rpm:test-key-1" = 2 ∧
  used (redis w') (clock w') "rate_limit:rpm:test-key-1"
  = win (cnt (raw (redis w') "rate_limit:rpm:test-key-1")) (seg_of (clock w')).
Proof.
  cbv zeta. split; [reflexivity|]. split; [vm_compute; reflexivity|].
  apply (expiry_never_hides_window_counters word_encode plain_isoformat
           [EvRequest (hi_request None) (Some "Bearer test-key-1"); EvTask 0;
            EvRequest (hi_request (Some 100)) (Some "Bearer test-key-1")]
           w_start "rate_limit:rpm:test-key-1" eq_refl).
Defined.

Lemma success_records_the_reported_usage_witness :
  ∃ resp w' a c t,
    chat_completions word_encode plain_isoformat (hi_request None)
      (Some "Bearer test-key-1") w_start = (Ok resp, w') ∧
    status_code resp = 200 ∧
    response_content resp = CompletionContent c ∧
    prompt_tokens (usage c) = estimate_request_tokens word_encode (hi_request None) ∧
    total_tokens (usage c) = prompt_tokens (usage c) + completion_tokens (usage c) ∧
    redis w' = recorded (clock w') (seg_of t) (replace a "Bearer " "")
                 (prompt_tokens (usage c)) (completion_tokens (usage c))
                 (redis w_start).
Proof.
  pose (out := chat_completions word_encode plain_isoformat (hi_request None)
                 (Some "Bearer test-key-1") w_start).
  assert (status_code <$> returned out = Some 200) as H1 by (vm_compute; reflexivity).
  destruct (returned out) as [resp|] eqn:Hr; [|discriminate].
  injection H1 as H1. apply returned_Some in Hr.
  destruct (success_records_the_reported_usage _ _ _ _ _ _ _ Hr H1)
    as (a & c & t & _ & Hc & Hp & Ht & _ & _ & _ & Hrec & _).
  exists resp, out.2, a, c, t.
  split; [exact Hr|]. split; [exact H1|]. split; [exact Hc|]. split; [exact Hp|].
  split; [exact Ht|exact Hrec].
Defined.

Lemma authentication_failures_touch_nothing_witness :
  chat_completions word_encode plain_isoformat (hi_request None) (Some "") w_start
  = (Raise (HTTPException 401 "Invalid authorization header" "invalid_request_error"),
     w_start) ∧
  chat_completions word_encode plain_isoformat (hi_request None)
    (Some "Bearer no-such-key") w_start
  = (Raise (HTTPException 401 "Invalid API key" "invalid_request_error"), w_start).
Proof.
  destruct (authentication_failures_touch_nothing word_encode plain_isoformat
              (hi_request None) (Some "") w_start) as (H1 & _ & _).
  destruct (authentication_failures_touch_nothing word_encode plain_isoformat
              (hi_request None) (Some "Bearer no-such-key") w_start) as (_ & H2 & _).
  split.
  - apply H1. by intros a [= <-].
  - apply (H2 "Bearer no-such-key" eq_refl); vm_compute; reflexivity.
Defined.

Lemma usage_forgotten_after_a_window_witness :
  ∃ w1 s w2,
    record_usage "test-key-1" 8 11 w_start = (Ok tt, w1) ∧
    seg_of (clock w1) + segments ≤ seg_of (clock (later 60000000 w1)) ∧
    _get_window_sum "rate_limit:rpm:test-key-1" (later 60000000 w1) = (Ok s, w2) ∧
    s = 0.
Proof.
  pose (out := record_usage "test-key-1" 8 11 w_start).
  pose (out2 := _get_window_sum "rate_limit:rpm:test-key-1" (later 60000000 out.2)).
  assert (returned out = Some tt) as H1 by (vm_compute; reflexivity).
  assert (seg_of (clock out.2) + segments ≤ seg_of (clock (later 60000000 out.2)))
    as H2 by (by vm_compute).
  assert (is_Some (returned out2)) as [s H3] by (vm_compute; eauto).
  apply returned_Some in H1, H3.
  exists out.2, s, out2.2. split; [exact H1|]. split; [exact H2|]. split; [exact H3|].
  exact (usage_forgotten_after_a_window "test-key-1" 8 11 w_start _ Rpm _ _ _
           H1 (well_formed_empty _) (reads_later 60000000 _ ltac:(lia)) H2 H3).
Defined.

Lemma request_touches_only_its_own_counters_witness :
  ∃ res w',
    chat_completions word_encode plain_isoformat (hi_request None)
      (Some "Bearer test-key-1") w_two_records = (res, w') ∧
    kv (redis w') "rate_limit:rpm:test-key-2"
    = kv (redis w_two_records) "rate_limit:rpm:test-key-2" ∧
    window_sum_at (redis w') (clock w') (clock w') (metric_key Rpm "test-key-2")
    = window_sum_at (redis w_two_records) (clock w') (clock w')
                    (metric_key Rpm "test-key-2").
Proof.
  destruct (chat_completions word_encode plain_isoformat (hi_request None)
              (Some "Bearer test-key-1") w_two_records) as [res w'] eqn:Hx.
  destruct (request_touches_only_its_own_counters _ _ _ _ _ _ _ Hx) as [H1 H2].
  exists res, w'. split; [reflexivity|]. split.
  - apply H1. intros []; vm_compute; discriminate.
  - apply H2. vm_compute. discriminate.
Defined.

Lemma increment_counter_then_window_sum_witness :
  ∃ w1 s w2,
    _increment_counter "rate_limit:rpm:test-key-1" 340000000 5 w_start = (Ok tt, w1) ∧
    _get_window_sum "rate_limit:rpm:test-key-1" w1 = (Ok s, w2) ∧
    s = win (cnt (hash_at (clock w1) (redis w_start) "rate_limit:rpm:test-key-1"))
            340000000
        + 5.
Proof.
  pose (out := _increment_counter "rate_limit:rpm:test-key-1" 340000000 5 w_start).
  pose (out2 := _get_window_sum "rate_limit:rpm:test-key-1" out.2).
  assert (returned out = Some tt) as H1 by (vm_compute; reflexivity).
  assert (is_Some (returned out2)) as [s H2] by (vm_compute; eauto).
  assert (seg_of (clock out.2) = 340000000) as H3 by (vm_compute; reflexivity).
  assert (seg_of (clock out2.2) = 340000000) as H4 by (vm_compute; reflexivity).
  assert (clock out2.2 < clock out.2 + window_size * 2 * usec) as H5
    by (vm_compute; reflexivity).
  apply returned_Some in H1, H2.
  exists out.2, s, out2.2. split; [exact H1|]. split; [exact H2|].
  exact (increment_counter_then_window_sum _ _ _ _ _ _ _ _ _
           H1 (reads_refl _) H2 H3 H4 H5).
Defined.


Lemma sequential_store_is_well_formed_witness :
  let w' := run word_encode plain_isoformat
              [EvRequest (hi_request None) (Some "Bearer test-key-1"); EvTask 1; EvIdle]
              w_start in
  redis w_start = empty_redis ∧
  well_formed (redis w') (clock w') ∧
  0 ≤ window_sum_at (redis w') (clock w') (clock w') "rate_limit:output_tpm:test-key-1".
Proof.
  cbv zeta. split; [reflexivity|].
  destruct (sequential_store_is_well_formed word_encode plain_isoformat
              [EvRequest (hi_request None) (Some "Bearer test-key-1"); EvTask 1; EvIdle]
              w_start eq_refl) as [H1 H2].
  split; [exact H1|apply H2].
Defined.

Lemma oversized_request_is_rejected_witness :
  ∃ resp w',
    chat_completions word_encode plain_isoformat (hi_request (Some 2000))
      (Some "Bearer test-key-1") w_start = (Ok resp, w') ∧
    well_formed (redis w_start) (clock w_start) ∧
    output_tpm (Config.get_api_key_limits (replace "Bearer test-key-1" "Bearer " ""))
      < output_reservation (hi_request (Some 2000)) ∧
    status_code resp = 429.
Proof.
  pose (out := chat_completions word_encode plain_isoformat (hi_request (Some 2000))
                 (Some "Bearer test-key-1") w_start).
  assert (is_Some (returned out)) as [resp H1] by (vm_compute; eauto).
  apply returned_Some in H1.
  assert (output_tpm (Config.get_api_key_limits
                        (replace "Bearer test-key-1" "Bearer " ""))
          < output_reservation (hi_request (Some 2000))) as H2 by (by vm_compute).
  exists resp, out.2. split; [exact H1|]. split; [apply well_formed_empty|].
  split; [exact H2|].
  exact (oversized_request_is_rejected _ _ _ _ _ _ _ H1 (well_formed_empty _)
           (or_intror H2)).
Defined.

Lemma window_sum_of_absent_key_witness :
  ∃ s w',
    hashes (redis w_start) !! "rate_limit:rpm:test-key-1" = None ∧
    _get_window_sum "rate_limit:rpm:test-key-1" w_start = (Ok s, w') ∧
    s = 0.
Proof.
  pose (out := _get_window_sum "rate_limit:rpm:test-key-1" w_start).
  assert (is_Some (returned out)) as [s H1] by (vm_compute; eauto).
  apply returned_Some in H1.
  assert (hashes (redis w_start) !! "rate_limit:rpm:test-key-1" = None) as H0
    by reflexivity.
  exists s, out.2. split; [exact H0|]. split; [exact H1|].
  exact (window_sum_of_absent_key _ w_start _ _ (or_introl H0) H1).
Defined.

(** A key whose deadline has passed reads as absent: two minutes after the
    last record the window sum is 0 and the key lists no field. *)
Example expired_key_reads_zero :
  let out := _get_window_sum "rate_limit:rpm:test-key-1"
               (later 120000000 w_two_records) in
  returned out = Some 0 ∧
  hkeys (clock out.2) "rate_limit:rpm:test-key-1" (redis out.2) = [].
Proof. cbv zeta. split; vm_compute; reflexivity. Qed.

Lemma check_is_repeatable_witness :
  ∃ a1 i1 w1 a2 i2 w2,
    check_rate_limit word_encode "test-key-1" (hi_request (Some 2000)) w_start
    = (Ok (a1, i1), w1) ∧
    check_rate_limit word_encode "test-key-1" (hi_request (Some 2000)) w1
    = (Ok (a2, i2), w2) ∧
    seg_of (clock w_start) = seg_of (clock w2) ∧
    a1 = a2 ∧ i1 = i2.
Proof.
  pose (out := check_rate_limit word_encode "test-key-1" (hi_request (Some 2000))
                 w_start).
  pose (out2 := check_rate_limit word_encode "test-key-1" (hi_request (Some 2000))
                  out.2).
  assert (is_Some (returned out)) as [[a1 i1] H1] by (vm_compute; eauto).
  assert (is_Some (returned out2)) as [[a2 i2] H2] by (vm_compute; eauto).
  assert (seg_of (clock w_start) = seg_of (clock out2.2)) as H3
    by (vm_compute; reflexivity).
  apply returned_Some in H1, H2.
  exists a1, i1, out.2, a2, i2, out2.2.
  split; [exact H1|]. split; [exact H2|]. split; [exact H3|].
  assert (deadlines_ok (redis w_start) (clock w_start)) as H0
    by apply deadlines_ok_empty.
  unfold out2 in H2, H3. unfold out in H1.
  exact (check_is_repeatable _ _ _ _ _ _ _ _ _ _ _ H0 H1 (reads_refl _) H2 H3).
Defined.

